(** * LeoPictos: the two-tier caching subsystem

    A shallow embedding of
    - [services/cacheService.ts]: the IndexedDB store with per-entry expiry,
    - [services/apiService.ts]: the REST calls wrapped with read-through and
      write-invalidate caching,
    - [public/sw.js]: the service worker with its three caching strategies
      and its life cycle,
    - [App.tsx]: the handlers of the component that call the coordinator,
    followed by the properties of the specification, stated on these
    definitions.

    JavaScript's [async] functions are modelled in a small monad that threads
    the state of the outside world (object store, clock, network) and returns
    how the function's promise settles. *)

From stdpp Require Import gmap strings list fin_maps.

Local Open Scope Z_scope.

(* ===================================================================== *)
(** ** Promises and [async] functions *)
(* ===================================================================== *)

Module Js.

(** A thrown value: [new Error(message)], a [TypeError] of [fetch], a
    [DOMException] of IndexedDB. *)
Record error := Err { err_name : string; err_message : string }.

(** How a promise settles. *)
Inductive outcome (A : Type) : Type :=
| Resolved (a : A)
| Rejected (e : error).
Global Arguments Resolved {A} a.
Global Arguments Rejected {A} e.

(** A promise that the model has already run to its settlement; holding one
    is not awaiting it. *)
Definition promise (A : Type) : Type := outcome A.

(** The body of an [async] function over a world [W]: it runs from a world
    to the settlement of its promise and the world it leaves. *)
Definition M (W A : Type) : Type := W → outcome A * W.

Section Monad.
Context {W : Type}.

Definition ret {A} (a : A) : M W A := λ w, (Resolved a, w).

(** [throw e], or awaiting a rejected promise. *)
Definition throw {A} (e : error) : M W A := λ w, (Rejected e, w).

(** [const x = await m; k x]: a rejection of [m] leaves the sequence. *)
Definition bind {A B} (m : M W A) (k : A → M W B) : M W B :=
  λ w, match m w with
       | (Resolved a, w') => k a w'
       | (Rejected e, w') => (Rejected e, w')
       end.

(** [try { body } catch (e) { handler e }]. The handler sees every
    rejection that [body] awaits; the effects [body] had until then
    stay. *)
Definition try_catch {A} (body : M W A) (handler : error → M W A) : M W A :=
  λ w, match body w with
       | (Resolved a, w') => (Resolved a, w')
       | (Rejected e, w') => handler e w'
       end.

(** [new Promise(executor)] and, generally, calling an async function
    without [await]: the caller gets the promise as a value and is not
    interrupted when it rejects. *)
Definition new_Promise {A} (m : M W A) : M W (promise A) :=
  λ w, let '(o, w') := m w in (Resolved o, w').

(** [await p] for a promise held as a value; also what [return p] does at
    the end of an async function: the function's own promise settles
    like [p]. *)
Definition await {A} (p : promise A) : M W A := λ w, (p, w).

(** A call whose promise is dropped ([f(x);] with neither [await] nor
    [return]): its effects happen, its settlement is observed by
    nobody. *)
Definition forget {A} (m : M W A) : M W unit :=
  λ w, (Resolved tt, snd (m w)).
End Monad.

Global Instance M_ret {W} : MRet (M W) := λ A, @ret W A.
Global Instance M_bind {W} : MBind (M W) := λ A B k m, bind m k.

Definition resolves {A} (o : outcome A) : Prop := ∃ a, o = Resolved a.
Definition rejects {A} (o : outcome A) : Prop := ∃ e, o = Rejected e.

End Js.
Import Js.

(* ===================================================================== *)
(** ** The application's data *)
(* ===================================================================== *)

(** A field of a pictogram record ([types.ts]: strings, one number, one
    boolean, each possibly [undefined]). *)
Inductive jsval :=
| JUndefined
| JNull
| JBool (b : bool)
| JNum (n : Z)
| JStr (s : string).

Global Instance jsval_eq_dec : EqDecision jsval.
Proof. solve_decision. Defined.

(** A [Pictogram], a [Partial<Pictogram>] or an [Omit<Pictogram, 'id'>] at run
    time: an object with some of the fields present. *)
Abbreviation pictogram := (gmap string jsval).

(** What the API returns and the store keeps: one record or a collection. *)
Inductive json :=
| JItem (p : pictogram)
| JList (l : list pictogram).

Global Instance json_eq_dec : EqDecision json.
Proof. solve_decision. Defined.

(* ===================================================================== *)
(** ** The browser, as the application sees it *)
(* ===================================================================== *)

Module Platform.

(** What goes wrong with one IndexedDB operation. Each operation of
    [cacheService.ts] opens the database, opens a transaction and issues one
    request; each of the three steps can fail. *)
Inductive fault :=
| Healthy
| OpenFails (e : error)          (* [indexedDB.open]: [request.onerror] *)
| TransactionThrows (e : error)  (* [db.transaction(...)] throws *)
| RequestFails (e : error).      (* the store request: [request.onerror] *)

(** [interface CacheEntry<T>] of [cacheService.ts]. The stored object also
    carries [id: key], which is the key of the map below. *)
Record CacheEntry (T : Type) := {
  data : T;
  timestamp : Z;
  expiresAt : Z
}.
Global Arguments data {T} _.
Global Arguments timestamp {T} _.
Global Arguments expiresAt {T} _.

(** A [Response] of [fetch]: [body] is what [response.json()] parses, [None]
    when the body is not JSON. *)
Record Response := {
  status : Z;
  statusText : string;
  body : option json
}.

(** [response.ok]: the status is in the range 200-299. *)
Definition ok (r : Response) : bool := bool_decide (200 ≤ status r ≤ 299).

(** How one [fetch] call ends: the promise rejects (no connection), or a
    response arrives, whatever its status. *)
Inductive net_result :=
| NetFails (e : error)
| NetResponds (r : Response).

(** The world of the application. [faults], [ticks] and [network] are the
    scripts of the environment: the next IndexedDB operation takes the head
    of [faults], the next [Date.now()] advances the clock by the head of
    [ticks], the next [fetch] ends as the head of [network] says. [fetched]
    records the [fetch] calls made, oldest first. *)
Record world := World {
  idb : gmap string (CacheEntry json);
  clock : Z;
  ticks : list N;
  faults : list fault;
  network : list net_result;
  fetched : list (string * string)
}.

Definition set_idb (f : gmap string (CacheEntry json) → gmap string (CacheEntry json))
    (w : world) : world :=
  World (f (idb w)) (clock w) (ticks w) (faults w) (network w) (fetched w).

(** What the next [Date.now()] reads: the clock never goes back. An
    exhausted script means that it stands still. *)
Definition next_now (w : world) : Z := clock w + Z.of_N (hd 0%N (ticks w)).

(** [Date.now()], in milliseconds. *)
Definition Date_now : M world Z :=
  λ w, (Resolved (next_now w),
        World (idb w) (next_now w) (tl (ticks w)) (faults w) (network w) (fetched w)).

(** A connection, as returned by [indexedDB.open]; it remembers what will go
    wrong with the operation it was opened for. *)
Record IDBDatabase := { condition : fault }.

(** The operation that starts takes the head of [faults]. *)
Definition next_fault (w : world) : fault := hd Healthy (faults w).

Definition pop_fault (w : world) : world :=
  World (idb w) (clock w) (ticks w) (tl (faults w)) (network w) (fetched w).

(** No fault is scripted: every IndexedDB operation to come works. *)
Definition storage_healthy (w : world) : Prop :=
  Forall (λ f, f = Healthy) (faults w).

(** [indexedDB.open(DB_NAME, DB_VERSION)], settled. An exhausted script means
    a healthy store. *)
Definition indexedDB_open : M world IDBDatabase :=
  λ w, match next_fault w with
       | OpenFails e => (Rejected e, pop_fault w)
       | f => (Resolved {| condition := f |}, pop_fault w)
       end.

(** [db.transaction(STORE_NAME, mode).objectStore(STORE_NAME)]. *)
Definition transaction (db : IDBDatabase) : M world IDBDatabase :=
  match condition db with
  | TransactionThrows e => throw e
  | _ => mret db
  end.

(** A store request settles with [onsuccess] or with [onerror]; in the
    second case the code calls [reject(request.error)]. *)
Definition request {A} (store : IDBDatabase) (on_success : M world A) : M world A :=
  match condition store with
  | RequestFails e => throw e
  | _ => on_success
  end.

Definition store_get (store : IDBDatabase) (key : string)
    : M world (option (CacheEntry json)) :=
  request store (λ w, (Resolved (idb w !! key), w)).

Definition store_put (store : IDBDatabase) (key : string) (item : CacheEntry json)
    : M world unit :=
  request store (λ w, (Resolved tt, set_idb (insert key item) w)).

Definition store_delete (store : IDBDatabase) (key : string) : M world unit :=
  request store (λ w, (Resolved tt, set_idb (delete key) w)).

Definition store_clear (store : IDBDatabase) : M world unit :=
  request store (λ w, (Resolved tt, set_idb (λ _, ∅) w)).

(** How the next [fetch] ends. An exhausted script means the network is
    down. *)
Definition next_fetch (w : world) : net_result :=
  hd (NetFails (Err "TypeError" "Failed to fetch")) (network w).

Definition pop_fetch (method url : string) (w : world) : world :=
  World (idb w) (clock w) (ticks w) (faults w)
        (tl (network w)) (fetched w ++ [(method, url)]).

(** [fetch(url, {method})] *)
Definition fetch (method url : string) : M world Response :=
  λ w, match next_fetch w with
       | NetFails e => (Rejected e, pop_fetch method url w)
       | NetResponds r => (Resolved r, pop_fetch method url w)
       end.

(** [await response.json()]. *)
Definition Response_json (r : Response) : M world json :=
  match body r with
  | Some j => mret j
  | None => throw (Err "SyntaxError" "Unexpected token in JSON")
  end.

End Platform.
Import Platform.

(* ===================================================================== *)
(** ** services/cacheService.ts *)
(* ===================================================================== *)

Module CacheService.

Definition DB_NAME : string := "PictogramCache".
Definition DB_VERSION : Z := 1.
Definition STORE_NAME : string := "pictograms".
Definition LIST_CACHE_KEY : string := "__list__".
Definition CACHE_TTL : Z := 5 * 60 * 1000.

(** [initDB]: the promise resolves with the connection on [onsuccess] and
    rejects with [request.error] on [onerror]. *)
Definition initDB : M world IDBDatabase := indexedDB_open.

(** [deleteFromCache]. The promise of the request is *returned*, not
    awaited: it is built inside [try], but a rejection of it no longer
    passes through [catch]; the function's promise settles like it. Only
    what is awaited or thrown inside [try] (the failure of [initDB], of
    [db.transaction]) reaches [catch], which logs and lets the function
    return [undefined]. *)
Definition deleteFromCache (key : string) : M world unit :=
  p ← try_catch
        (db ← initDB;
         store ← transaction db;
         new_Promise (store_delete store key))
        (λ _error, mret (Resolved tt));
  await p.

(** [getFromCache]. [null] is [None]. On an expired entry
    [deleteFromCache(key)] is called and its promise dropped. IndexedDB runs
    the transactions on one store in the order of their creation, and this
    one is created before that of any later call, so the model runs it in
    place. *)
Definition getFromCache (key : string) : M world (option json) :=
  p ← try_catch
        (db ← initDB;
         store ← transaction db;
         new_Promise
           (entry ← store_get store key;
            match entry with
            | None => mret None
            | Some entry =>
                now ← Date_now;
                if bool_decide (now > expiresAt entry)
                then forget (deleteFromCache key);; mret None
                else mret (Some (data entry))
            end))
        (λ _error, mret (Resolved None));
  await p.

(** [saveToCache]. The entry reads the clock twice, once for [timestamp] and
    once for [expiresAt]. *)
Definition saveToCache (key : string) (data : json) (ttl : Z) : M world unit :=
  p ← try_catch
        (db ← initDB;
         store ← transaction db;
         timestamp ← Date_now;
         now ← Date_now;
         let entry := {| data := data; timestamp := timestamp;
                         expiresAt := now + ttl |} in
         new_Promise (store_put store key entry))
        (λ _error, mret (Resolved tt));
  await p.

(** The entry [saveToCache] builds in a world [w] in which its connection is
    open: [timestamp] from the first reading of the clock, [expiresAt] from
    the second. *)
Definition written_entry (data : json) (ttl : Z) (w : world) : CacheEntry json :=
  {| data := data;
     timestamp := next_now w;
     expiresAt := next_now (snd (Date_now w)) + ttl |}.

Definition clearCache : M world unit :=
  p ← try_catch
        (db ← initDB;
         store ← transaction db;
         new_Promise (store_clear store))
        (λ _error, mret (Resolved tt));
  await p.

Definition getCachedPictogramList : M world (option json) :=
  getFromCache LIST_CACHE_KEY.

Definition cachePictogramList (pictograms : json) : M world unit :=
  saveToCache LIST_CACHE_KEY pictograms CACHE_TTL.

Definition getCachedPictogram (id : string) : M world (option json) :=
  getFromCache id.

Definition invalidatePictogramListCache : M world unit :=
  deleteFromCache LIST_CACHE_KEY.

Definition invalidatePictogramCache (id : string) : M world unit :=
  deleteFromCache id;;
  invalidatePictogramListCache.

End CacheService.

(* ===================================================================== *)
(** ** services/apiService.ts *)
(* ===================================================================== *)

Module ApiService.
Import CacheService.

Section WithEndpoint.

(** [API_ENDPOINT], imported from the build's configuration. *)
Variable API_ENDPOINT : string.

(** [!userId]: [undefined] and the empty string are falsy. *)
Definition not_userId (userId : option string) : bool :=
  match userId with
  | None => true
  | Some s => bool_decide (s = "")
  end.

(** [{ id, ...updates }]: the fields of [updates], and [id] unless [updates]
    has an [id] of its own (the spread comes second and wins). *)
Definition merged (id : string) (updates : pictogram) : pictogram :=
  updates ∪ {[ "id" := JStr id ]}.

(** Create a new pictogram: the list is invalidated once the record has been
    created. *)
Definition createPictogram (pictogram : pictogram) : M world json :=
  response ← fetch "POST" (API_ENDPOINT +:+ "/pictograms");
  if negb (ok response) then
    throw (Err "Error" ("Failed to create pictogram: " +:+ statusText response))
  else
    newPictogram ← Response_json response;
    invalidatePictogramListCache;;
    mret newPictogram.

(** List all pictograms, optionally filtered by [userId]: only the request
    without a filter reads and fills the cache. *)
Definition listPictograms (userId : option string) : M world json :=
  cached ← (if not_userId userId then getCachedPictogramList else mret None);
  match cached with
  | Some cached => mret cached
  | None =>
      let url := if not_userId userId
                 then API_ENDPOINT +:+ "/pictograms"
                 else API_ENDPOINT +:+ "/pictograms?userId=" +:+ default "" userId in
      response ← fetch "GET" url;
      if negb (ok response) then
        throw (Err "Error" ("Failed to list pictograms: " +:+ statusText response))
      else
        pictograms ← Response_json response;
        (if not_userId userId then cachePictogramList pictograms else mret tt);;
        mret pictograms
  end.

(** [updatePictogram]. There is no [try] around [fetch]: only a response
    that arrived and is not [ok] takes the local fallback. *)
Definition updatePictogram (id : string) (updates : pictogram) : M world json :=
  response ← fetch "PATCH" (API_ENDPOINT +:+ "/pictograms/" +:+ id);
  if negb (ok response) then
    invalidatePictogramCache id;;
    mret (JItem (merged id updates))
  else
    updatedPictogram ← Response_json response;
    invalidatePictogramCache id;;
    mret updatedPictogram.

(** Delete a pictogram. *)
Definition deletePictogram (id : string) : M world unit :=
  response ← fetch "DELETE" (API_ENDPOINT +:+ "/pictograms/" +:+ id);
  if negb (ok response) then
    throw (Err "Error" ("Failed to delete pictogram: " +:+ statusText response))
  else
    invalidatePictogramCache id.

End WithEndpoint.

End ApiService.

(* ===================================================================== *)
(** ** public/sw.js *)
(* ===================================================================== *)

Module ServiceWorker.

Definition CACHE_VERSION : string := "v1".
Definition CACHE_NAMES_images : string := "leopictos-images-" +:+ CACHE_VERSION.
Definition CACHE_NAMES_api : string := "leopictos-api-" +:+ CACHE_VERSION.
Definition CACHE_NAMES_static : string := "leopictos-static-" +:+ CACHE_VERSION.

(** [Object.values(CACHE_NAMES)] *)
Definition CACHE_NAMES_values : list string :=
  [CACHE_NAMES_images; CACHE_NAMES_api; CACHE_NAMES_static].

Definition API_ENDPOINT : string :=
  "https://rmxx2fv016.execute-api.us-east-1.amazonaws.com/dev".

(** [new URL(request.url)], as far as the worker reads it. *)
Record URL := { href : string; origin : string; hostname : string }.

Record Request := { method : string; url : URL }.

(** A response as the worker handles it: a status and the bytes. *)
Record Response := { status : Z; bytes : string }.

(** [response.ok] *)
Definition ok (r : Response) : bool := bool_decide (200 ≤ status r ≤ 299).

Inductive net_result :=
| NetFails (e : error)
| NetResponds (r : Response).

(** One named cache of [caches]: the stored responses by URL. *)
Abbreviation Cache := (gmap string Response).

(** The life cycle of a worker instance; [Installed] is the waiting state. *)
Inductive phase := Installing | Installed | Activating | Activated | Redundant.

(** The world of the worker. [writing] holds the [cache.put] calls that were
    started and not awaited: their entries are in no cache until the browser
    completes them ([settle] below). [network] scripts the [fetch] calls,
    [fetched] records them, oldest first. *)
Record world := World {
  caches : gmap string Cache;
  writing : list (string * Request * Response);
  network : list net_result;
  fetched : list Request;
  location : URL;
  skip_waiting_flag : bool;
  claimed : bool
}.

(** [pattern.test(s)] for a pattern without anchors: [s] contains it. *)
Fixpoint contains (pattern s : string) : bool :=
  String.prefix pattern s ||
  match s with
  | EmptyString => false
  | String _ s' => contains pattern s'
  end.

(** [S3_PATTERN = /\.s3\.amazonaws\.com/] *)
Definition S3_PATTERN_test (s : string) : bool := contains ".s3.amazonaws.com" s.

(** How the next [fetch] ends. An exhausted script means the network is
    down. *)
Definition next_fetch (w : world) : net_result :=
  hd (NetFails (Err "TypeError" "Failed to fetch")) (network w).

Definition pop_fetch (request : Request) (w : world) : world :=
  World (caches w) (writing w) (tl (network w)) (fetched w ++ [request])
        (location w) (skip_waiting_flag w) (claimed w).

Definition fetch (request : Request) : M world Response :=
  λ w, match next_fetch w with
       | NetFails e => (Rejected e, pop_fetch request w)
       | NetResponds r => (Resolved r, pop_fetch request w)
       end.

Definition set_caches (f : gmap string Cache → gmap string Cache) (w : world) : world :=
  World (f (caches w)) (writing w) (network w) (fetched w) (location w)
        (skip_waiting_flag w) (claimed w).

(** [caches.open(cacheName)]: the cache is created when it does not exist.
    The handle is the name. *)
Definition opened (cacheName : string) (w : world) : world :=
  match caches w !! cacheName with
  | Some _ => w
  | None => set_caches (insert cacheName ∅) w
  end.
Global Arguments opened : simpl never.

Definition caches_open (cacheName : string) : M world string :=
  λ w, (Resolved cacheName, opened cacheName w).

(** The stored copy that answers [request] in the cache named [cache]: the
    Cache API matches [GET] requests only, by URL. *)
Definition stored (cs : gmap string Cache) (cache : string) (request : Request)
    : option Response :=
  if bool_decide (method request = "GET")
  then cs !! cache ≫= (.!! href (url request))
  else None.

(** [cache.match(request)]: [undefined] is [None]. *)
Definition Cache_match (cache : string) (request : Request) : M world (option Response) :=
  λ w, (Resolved (stored (caches w) cache request), w).

(** [cache.put(request, response.clone())] as the strategies call it, without
    [await]: the write is started and the caller goes on. *)
Definition Cache_put_start (cache : string) (request : Request) (response : Response)
    : M world unit :=
  λ w, (Resolved tt,
        World (caches w) (writing w ++ [(cache, request, response)]) (network w)
              (fetched w) (location w) (skip_waiting_flag w) (claimed w)).

(** What the Cache API accepts to store: a [GET] request with a response
    whose status is not 206 (partial content). [cache.put] and
    [cache.addAll] reject with a [TypeError] otherwise. (A response has no
    headers here, so the refusal of [Vary: *] does not arise.) *)
Definition storable (request : Request) (response : Response) : bool :=
  bool_decide (method request = "GET") && negb (bool_decide (status response = 206)).

(** Completion of one started [cache.put]: the entry replaces any earlier one
    for the URL. When the Cache API rejects the write (a request that is not
    a [GET], a response of status 206) nobody holds the promise, and nothing
    is stored. *)
Definition complete_put (cs : gmap string Cache) (p : string * Request * Response)
    : gmap string Cache :=
  let '(cache, request, response) := p in
  if storable request response
  then <[cache := <[href (url request) := response]> (default ∅ (cs !! cache))]> cs
  else cs.

(** The browser completes every started write. *)
Definition settle (w : world) : world :=
  World (foldl complete_put (caches w) (writing w)) [] (network w) (fetched w)
        (location w) (skip_waiting_flag w) (claimed w).

(** [cache.addAll(urls)]: every URL is fetched; the promise rejects unless
    every fetch gave an [ok] response that the cache accepts (not a 206),
    and then nothing is stored. The caller chains on the promise, so the
    entries are there when it resolves. *)
Definition precache_request (w : world) (path : string) : Request :=
  {| method := "GET";
     url := {| href := origin (location w) +:+ path;
               origin := origin (location w);
               hostname := hostname (location w) |} |}.

Fixpoint fetch_each (requests : list Request) : M world (list (Request * outcome Response)) :=
  match requests with
  | [] => mret []
  | r :: rest =>
      o ← new_Promise (fetch r);
      os ← fetch_each rest;
      mret ((r, o) :: os)
  end.

Definition fetched_ok (ro : Request * outcome Response) : option (string * Response) :=
  match ro.2 with
  | Resolved resp =>
      if ok resp && storable ro.1 resp then Some (href (url ro.1), resp) else None
  | Rejected _ => None
  end.

Definition Cache_addAll (cache : string) (paths : list string) : M world unit :=
  λ w, let '(o, w') := fetch_each (precache_request w <$> paths) w in
       match o with
       | Rejected e => (Rejected e, w')
       | Resolved ros =>
           match mapM fetched_ok ros with
           | Some entries =>
               (Resolved tt,
                set_caches (λ cs, <[cache := list_to_map entries ∪ default ∅ (cs !! cache)]> cs) w')
           | None => (Rejected (Err "TypeError" "Failed to execute 'addAll' on 'Cache'"), w')
           end
       end.

(** [self.skipWaiting()] *)
Definition skipWaiting : M world unit :=
  λ w, (Resolved tt,
        World (caches w) (writing w) (network w) (fetched w) (location w) true (claimed w)).

(** [self.clients.claim()] *)
Definition clients_claim : M world unit :=
  λ w, (Resolved tt,
        World (caches w) (writing w) (network w) (fetched w) (location w)
              (skip_waiting_flag w) true).

(** The [install] listener. The promise given to [event.waitUntil] is the
    result's outcome; [skipWaiting] is called whatever becomes of it. *)
Definition on_install : M world unit :=
  installed ← new_Promise
    (cache ← caches_open CACHE_NAMES_static;
     try_catch (Cache_addAll cache ["/"; "/index.html"; "/manifest.json"])
               (λ _err, mret tt));
  skipWaiting;;
  await installed.

(** The [activate] listener: every cache whose name is not one of
    [CACHE_NAMES] is deleted, and the open pages are claimed. *)
Definition on_activate : M world unit :=
  (λ w, (Resolved tt,
         set_caches (filter (λ kv, kv.1 ∈ CACHE_NAMES_values)) w));;
  clients_claim.

(** What the browser does when the [install] event has been handled: a
    failed install discards the instance; an installed one waits while an
    older instance controls pages, unless its skip-waiting flag is set. *)
Definition after_install (installed : outcome unit) (older_in_control : bool)
    (w : world) : phase :=
  match installed with
  | Rejected _ => Redundant
  | Resolved _ =>
      if skip_waiting_flag w || negb older_in_control then Activating else Installed
  end.

(** Cache-First Strategy *)
Definition cacheFirstStrategy (request : Request) (cacheName : string) : M world Response :=
  try_catch
    (cache ← caches_open cacheName;
     cachedResponse ← Cache_match cache request;
     match cachedResponse with
     | Some cachedResponse => mret cachedResponse
     | None =>
         networkResponse ← fetch request;
         (if ok networkResponse
          then Cache_put_start cache request networkResponse
          else mret tt);;
         mret networkResponse
     end)
    (λ error, throw error).

(** Network-First Strategy *)
Definition networkFirstStrategy (request : Request) (cacheName : string) : M world Response :=
  try_catch
    (networkResponse ← fetch request;
     (if ok networkResponse && bool_decide (method request = "GET")
      then cache ← caches_open cacheName;
           Cache_put_start cache request networkResponse
      else mret tt);;
     mret networkResponse)
    (λ error,
       cache ← caches_open cacheName;
       cachedResponse ← Cache_match cache request;
       match cachedResponse with
       | Some cachedResponse => mret cachedResponse
       | None => throw error
       end).

(** Stale-While-Revalidate. The result is [cachedResponse || fetchPromise];
    [undefined] is [None]. *)
Definition staleWhileRevalidateStrategy (request : Request) (cacheName : string)
    : M world (option Response) :=
  cache ← caches_open cacheName;
  cachedResponse ← Cache_match cache request;
  fetchPromise ← new_Promise
    (try_catch
       (networkResponse ← fetch request;
        (if ok networkResponse
         then Cache_put_start cache request networkResponse
         else mret tt);;
        mret (Some networkResponse))
       (λ _, mret cachedResponse));
  match cachedResponse with
  | Some cachedResponse => mret (Some cachedResponse)
  | None => await fetchPromise
  end.

(** The three partitions of the [fetch] listener, first match first. *)
Inductive partition := ImmutableMedia | AuthoritativeApi | DefaultPartition.

Definition classify (request : Request) : partition :=
  if S3_PATTERN_test (hostname (url request)) then ImmutableMedia
  else if bool_decide (origin (url request) = API_ENDPOINT)
          || String.prefix API_ENDPOINT (href (url request)) then AuthoritativeApi
  else DefaultPartition.

(** The [fetch] listener: what [event.respondWith] is given. *)
Definition on_fetch (request : Request) : M world (option Response) :=
  match classify request with
  | ImmutableMedia =>
      response ← cacheFirstStrategy request CACHE_NAMES_images; mret (Some response)
  | AuthoritativeApi =>
      response ← networkFirstStrategy request CACHE_NAMES_api; mret (Some response)
  | DefaultPartition => staleWhileRevalidateStrategy request CACHE_NAMES_static
  end.

(** [event.data] of the [message] listener. *)
Inductive message :=
| INVALIDATE_CACHE (cacheName : option string)
| SKIP_WAITING
| OtherMessage.

Definition on_message (data : message) : M world unit :=
  match data with
  | INVALIDATE_CACHE (Some cacheName) =>
      if bool_decide (cacheName = "")
      then λ w, (Resolved tt, set_caches (λ _, ∅) w)
      else λ w, (Resolved tt, set_caches (delete cacheName) w)
  | INVALIDATE_CACHE None => λ w, (Resolved tt, set_caches (λ _, ∅) w)
  | SKIP_WAITING => skipWaiting
  | OtherMessage => mret tt
  end.

End ServiceWorker.

(* ===================================================================== *)
(** ** App.tsx *)
(* ===================================================================== *)

Module App.
Import CacheService ApiService.

(** ['success' | 'error'] *)
Inductive toast_type := ToastSuccess | ToastError.

(** The state of the component that the handlers below read and set. *)
Record state := State {
  pictograms : list json;
  sentence : list json;
  toast : option (string * toast_type)
}.

(** [setPictograms(f)], [setSentence(f)] and [setToast(t)] *)
Definition setPictograms (f : list json → list json) : M (state * world) unit :=
  λ sw, (Resolved tt, (State (f (pictograms sw.1)) (sentence sw.1) (toast sw.1), sw.2)).

Definition setSentence (f : list json → list json) (s : state) : state :=
  State (pictograms s) (f (sentence s)) (toast s).

Definition showToast (message : string) (type : toast_type) : M (state * world) unit :=
  λ sw, (Resolved tt, (State (pictograms sw.1) (sentence sw.1) (Some (message, type)), sw.2)).

(** [pictograms], as the handler that starts reads it. *)
Definition read_pictograms : M (state * world) (list json) :=
  λ sw, (Resolved (pictograms sw.1), sw).

(** A call of [apiService.ts]: it runs on the world and leaves the state of
    the component alone. *)
Definition call {A} (m : M world A) : M (state * world) A :=
  λ sw, let '(o, w') := m sw.2 in (o, (sw.1, w')).

(** [p.id === id] for a string [id]: an array has no [id]. *)
Definition has_id (id : string) (p : json) : bool :=
  match p with
  | JItem fields => bool_decide (fields !! "id" = Some (JStr id))
  | JList _ => false
  end.

(** [l.filter((x, i) => keep(i, x))], counting from [i]. *)
Fixpoint filter_index {A} (keep : nat → A → bool) (i : nat) (l : list A) : list A :=
  match l with
  | [] => []
  | x :: l' =>
      if keep i x then x :: filter_index keep (S i) l' else filter_index keep (S i) l'
  end.

Section WithEndpoint.

Variable API_ENDPOINT : string.

(** [handleAddPictogram]: [const { id, ...pictogramData } = newPictogram]
    drops the [id]. *)
Definition handleAddPictogram (newPictogram : pictogram) : M (state * world) unit :=
  try_catch
    (let pictogramData := delete "id" newPictogram in
     created ← call (createPictogram API_ENDPOINT pictogramData);
     setPictograms (λ prev, created :: prev);;
     showToast "Pictograma creado con éxito" ToastSuccess)
    (λ _error, showToast "Error guardando en la base de datos" ToastError).

(** [handleDeletePictogram]: the record leaves the list before the server
    is asked, and the list is put back when the server call fails. *)
Definition handleDeletePictogram (id : string) : M (state * world) unit :=
  previous ← read_pictograms;
  setPictograms (filter (λ p, has_id id p = false));;
  try_catch
    (call (deletePictogram API_ENDPOINT id);;
     showToast "Pictograma eliminado" ToastSuccess)
    (λ _error,
       showToast "No se pudo borrar el pictograma" ToastError;;
       setPictograms (λ _, previous)).

End WithEndpoint.

(** The sentence strip. *)
Definition addToSentence (pictogram : json) : state → state :=
  setSentence (λ prev, prev ++ [pictogram]).

Definition removeFromSentence (index : Z) : state → state :=
  setSentence (filter_index (λ i _, negb (bool_decide (Z.of_nat i = index))) 0).

Definition clearSentence : state → state := setSentence (λ _, []).

End App.

(* ===================================================================== *)
(** ** Scenarios *)
(* ===================================================================== *)

(** Concrete worlds and requests on which the properties below are run. *)

Module AppScenarios.
Import CacheService ApiService.

Definition QuotaExceededError : error :=
  Err "QuotaExceededError" "The quota has been exceeded.".

(** The next store request fails. *)
Definition quota_world : world :=
  World ∅ 1000 [] [RequestFails QuotaExceededError] [] [].

(** The clock passes a millisecond between two readings. *)
Definition ticking_world : world := World ∅ 1000 [0%N; 1%N] [] [] [].

Definition fresh_world : world := World ∅ 1000 [] [] [] [].

(** The store that [saveToCache] left in [fresh_world], six minutes later. *)
Definition later_world : world :=
  World (idb (snd (saveToCache "p1" (JList []) CACHE_TTL fresh_world)))
        361000 [] [] [] [].

Definition endpoint : string := "https://api.example/dev".

Definition perro : pictogram := {[ "id" := JStr "p1"; "word" := JStr "PERRO" ]}.

Definition old_list : json := JList [perro].

Definition casa : pictogram := {[ "word" := JStr "CASA" ]}.

(** A store that holds one record and the list, a network and a store
    script. *)
Definition cached_world (net : list net_result) (fs : list fault) : world :=
  World {[ "p1" := {| data := JItem perro; timestamp := 1000; expiresAt := 301000 |};
           LIST_CACHE_KEY :=
             {| data := old_list; timestamp := 1000; expiresAt := 301000 |} ]}
        2000 [] fs net [].

Definition not_found : Response :=
  {| status := 404; statusText := "Not Found"; body := None |}.

Definition store_error : error := Err "UnknownError" "Internal error.".

Definition offline : error := Err "TypeError" "Failed to fetch".

Definition created_casa : json := JItem {[ "id" := JStr "p2"; "word" := JStr "CASA" ]}.

Definition created_response : Response :=
  {| status := 201; statusText := "Created"; body := Some created_casa |}.

Definition fresh_list : json :=
  JList [perro; {[ "id" := JStr "p2"; "word" := JStr "CASA" ]}].

Definition list_response : Response :=
  {| status := 200; statusText := "OK"; body := Some fresh_list |}.

(** The store that a successful create left, with the network answering the
    next request with the fresh collection. *)
Definition after_create : world :=
  World (idb (snd (createPictogram endpoint casa
                     (cached_world [NetResponds created_response] []))))
        3000 [] [] [NetResponds list_response] [].

End AppScenarios.

Module ProxyScenarios.
Import ServiceWorker.

Definition app : URL :=
  {| href := "https://leopictos.example/";
     origin := "https://leopictos.example";
     hostname := "leopictos.example" |}.

Definition bucket (path : string) : URL :=
  {| href := "https://leopictos.s3.amazonaws.com/" +:+ path;
     origin := "https://leopictos.s3.amazonaws.com";
     hostname := "leopictos.s3.amazonaws.com" |}.

(** A picture read from the bucket, and the upload of one. *)
Definition picture : Request := {| method := "GET"; url := bucket "perro.png" |}.
Definition upload : Request := {| method := "PUT"; url := bucket "casa.png" |}.

Definition list_request : Request :=
  {| method := "GET";
     url := {| href := API_ENDPOINT +:+ "/pictograms";
               origin := "https://rmxx2fv016.execute-api.us-east-1.amazonaws.com";
               hostname := "rmxx2fv016.execute-api.us-east-1.amazonaws.com" |} |}.

Definition page : Request :=
  {| method := "GET";
     url := {| href := "https://leopictos.example/about";
               origin := "https://leopictos.example";
               hostname := "leopictos.example" |} |}.

Definition png : Response := {| status := 200; bytes := "PNG" |}.

(** The answer to a range request: [ok], and partial. *)
Definition partial_content : Response := {| status := 206; bytes := "PN" |}.
Definition listing : Response := {| status := 200; bytes := "[]" |}.

Definition network_down : error := Err "TypeError" "Failed to fetch".

(** Empty caches; the network answers as scripted and is down afterwards. *)
Definition online (answers : list net_result) : world :=
  World ∅ [] answers [] app false false.

(** The API cache holds a copy of the listing, and the network is down. *)
Definition offline_with_copy : world :=
  World {[ CACHE_NAMES_api := {[ href (url list_request) := listing ]} ]}
        [] [] [] app false false.

End ProxyScenarios.

Module MoreScenarios.
Import CacheService ApiService AppScenarios.

(** The store cannot be reached for the operation that starts: the database
    does not open, or the transaction does not start. *)
Definition unreachable (f : fault) : Prop :=
  ∃ e, f = OpenFails e ∨ f = TransactionThrows e.

(** The store of [cached_world], long after its entries expired. *)
Definition expired_world (fs : list fault) : world :=
  World (idb (cached_world [] [])) 400000 [] fs [] [].

Definition server_error : Response :=
  {| status := 500; statusText := "Internal Server Error"; body := None |}.

(** A success whose body is not JSON. *)
Definition no_content : Response :=
  {| status := 204; statusText := "No Content"; body := None |}.

Definition updated_perro : json :=
  JItem {[ "id" := JStr "p1"; "word" := JStr "GATO" ]}.

Definition update_response : Response :=
  {| status := 200; statusText := "OK"; body := Some updated_perro |}.

Definition deleted_response : Response :=
  {| status := 200; statusText := "OK"; body := None |}.

Definition screen (l : list json) : App.state := App.State l [] None.

End MoreScenarios.

(* ===================================================================== *)
(** ** The store: how each operation runs *)
(* ===================================================================== *)

Module StoreFacts.
Import CacheService.

Lemma storage_healthy_next w : storage_healthy w → next_fault w = Healthy.
Proof.
  unfold storage_healthy, next_fault. destruct (faults w) as [|f fs]; [done|].
  intros H. by apply Forall_cons in H as [-> _].
Qed.

Lemma storage_healthy_pop w : storage_healthy w → storage_healthy (pop_fault w).
Proof.
  unfold storage_healthy, pop_fault. simpl.
  destruct (faults w) as [|f fs]; [done|]. intros H. by apply Forall_cons in H as [_ H].
Qed.

Lemma storage_healthy_set_idb f w : storage_healthy w → storage_healthy (set_idb f w).
Proof. done. Qed.

(** [deleteFromCache], case by case on what happens to its operation. *)
Lemma deleteFromCache_run key w :
  deleteFromCache key w =
  match next_fault w with
  | Healthy => (Resolved tt, set_idb (delete key) (pop_fault w))
  | OpenFails _ | TransactionThrows _ => (Resolved tt, pop_fault w)
  | RequestFails e => (Rejected e, pop_fault w)
  end.
Proof.
  unfold deleteFromCache, initDB, indexedDB_open, mbind, M_bind, bind, try_catch.
  destruct (next_fault w); reflexivity.
Qed.

Lemma saveToCache_run key data ttl w :
  saveToCache key data ttl w =
  match next_fault w with
  | Healthy =>
      (Resolved tt,
       set_idb (insert key (written_entry data ttl (pop_fault w)))
               (snd (Date_now (snd (Date_now (pop_fault w))))))
  | OpenFails _ | TransactionThrows _ => (Resolved tt, pop_fault w)
  | RequestFails e => (Rejected e, snd (Date_now (snd (Date_now (pop_fault w)))))
  end.
Proof.
  unfold saveToCache, initDB, indexedDB_open, mbind, M_bind, bind, try_catch.
  destruct (next_fault w); reflexivity.
Qed.

(** What [saveToCache] writes on a store that works. *)
Lemma saveToCache_writes key data ttl w :
  next_fault w = Healthy →
  idb (snd (saveToCache key data ttl w)) !! key
  = Some (written_entry data ttl (pop_fault w)).
Proof.
  intros H. rewrite saveToCache_run, H. cbn. apply lookup_insert_eq.
Qed.

(** [getFromCache]: a miss, a live entry, an expired entry. *)
Lemma getFromCache_run key w :
  getFromCache key w =
  match next_fault w with
  | Healthy =>
      match idb w !! key with
      | None => (Resolved None, pop_fault w)
      | Some entry =>
          if bool_decide (next_now w > expiresAt entry)
          then (Resolved None, snd (deleteFromCache key (snd (Date_now (pop_fault w)))))
          else (Resolved (Some (data entry)), snd (Date_now (pop_fault w)))
      end
  | OpenFails _ | TransactionThrows _ => (Resolved None, pop_fault w)
  | RequestFails e => (Rejected e, pop_fault w)
  end.
Proof.
  unfold getFromCache, initDB, indexedDB_open, mbind, M_bind, bind, try_catch.
  destruct (next_fault w); try reflexivity.
  unfold new_Promise, store_get, request, forget, Date_now. cbn.
  destruct (idb w !! key) as [entry|]; [|reflexivity].
  change (next_now (pop_fault w)) with (next_now w).
  destruct (bool_decide (next_now w > expiresAt entry)); reflexivity.
Qed.

End StoreFacts.

(* ===================================================================== *)
(** ** The structured client store *)
(* ===================================================================== *)

Module StoreProperties.
Import CacheService StoreFacts AppScenarios.

(** When the database cannot be opened or the transaction cannot be started,
    the failure is caught: a read misses, a write or a delete does nothing,
    and none of them rejects. *)
Lemma unreachable_store_behaves_empty key data ttl w :
  (∃ e, next_fault w = OpenFails e ∨ next_fault w = TransactionThrows e) →
  getFromCache key w = (Resolved None, pop_fault w) ∧
  saveToCache key data ttl w = (Resolved tt, pop_fault w) ∧
  deleteFromCache key w = (Resolved tt, pop_fault w).
Proof.
  intros [e [H|H]];
    (split; [rewrite getFromCache_run
            |split; [rewrite saveToCache_run | rewrite deleteFromCache_run]]);
    rewrite H; reflexivity.
Qed.

(** C2, the code where the claim fails: when the store request of an
    operation fails ([request.onerror], as on an exceeded quota), the promise
    that [getFromCache], [saveToCache] and [deleteFromCache] return rejects
    with the request's error. The claim asks [get] to give none and
    [put]/[delete] to complete without an error. *)
Theorem failed_store_request_surfaces key data ttl w e :
  next_fault w = RequestFails e →
  fst (getFromCache key w) = Rejected e ∧
  fst (saveToCache key data ttl w) = Rejected e ∧
  fst (deleteFromCache key w) = Rejected e.
Proof.
  intros H. (split; [|split]);
    [rewrite getFromCache_run | rewrite saveToCache_run | rewrite deleteFromCache_run];
    rewrite H; reflexivity.
Qed.

Lemma failed_store_request_surfaces_witness :
  next_fault quota_world = RequestFails QuotaExceededError ∧
  fst (getFromCache "p1" quota_world) = Rejected QuotaExceededError ∧
  fst (saveToCache "p1" (JList []) CACHE_TTL quota_world) = Rejected QuotaExceededError ∧
  fst (deleteFromCache "p1" quota_world) = Rejected QuotaExceededError.
Proof.
  split; [reflexivity|].
  apply (failed_store_request_surfaces "p1" (JList []) CACHE_TTL quota_world).
  reflexivity.
Defined.

(** While the clock does not move between the two readings, the entry has
    [expiresAt = timestamp + ttl]. *)
Lemma saveToCache_invariant_same_tick key data ttl w entry :
  next_fault w = Healthy →
  hd 0%N (tl (ticks w)) = 0%N →
  idb (snd (saveToCache key data ttl w)) !! key = Some entry →
  expiresAt entry = timestamp entry + ttl.
Proof.
  intros H Htick. rewrite saveToCache_writes by done. intros [= <-].
  cbn. unfold next_now. cbn. rewrite Htick. lia.
Qed.

(** C4, the code where the claim fails: [saveToCache] reads [Date.now()]
    once for [timestamp] and once more for [expiresAt], so the entry written
    has [expiresAt = timestamp + d + ttl], where [d] is the time that passed
    between the two readings. The claim asks for [expiresAt = timestamp +
    ttl]. *)
Theorem saveToCache_expiry_from_second_reading key data ttl w :
  next_fault w = Healthy →
  ∃ entry, idb (snd (saveToCache key data ttl w)) !! key = Some entry ∧
           timestamp entry = next_now w ∧
           expiresAt entry = timestamp entry + Z.of_N (hd 0%N (tl (ticks w))) + ttl.
Proof.
  intros H. eexists. split; [by apply saveToCache_writes|].
  cbn. unfold next_now. cbn. split; lia.
Qed.

Lemma saveToCache_expiry_from_second_reading_witness :
  next_fault ticking_world = Healthy ∧
  ∃ entry, idb (snd (saveToCache "p1" (JList []) 10 ticking_world)) !! "p1" = Some entry ∧
           timestamp entry = 1000 ∧
           expiresAt entry = timestamp entry + 1 + 10.
Proof.
  split; [reflexivity|].
  apply (saveToCache_expiry_from_second_reading "p1" (JList []) 10 ticking_world).
  reflexivity.
Defined.

(** C5, as stated, fails. An entry is written; six minutes later the key
    is read, and the delete that the read starts for the expired entry
    cannot open the database. The failure is logged and dropped: the read
    resolves with none, and the expired entry is still in the store. *)
Lemma expired_entry_can_stay :
  let w := World (idb (snd (saveToCache "p1" (JList []) CACHE_TTL fresh_world)))
                 361000 [] [Healthy; OpenFails store_error] [] [] in
  idb w !! "p1" = Some {| data := JList []; timestamp := 1000; expiresAt := 301000 |} ∧
  next_now w > 301000 ∧
  fst (getFromCache "p1" w) = Resolved None ∧
  idb (snd (getFromCache "p1" w)) !! "p1"
    = Some {| data := JList []; timestamp := 1000; expiresAt := 301000 |}.
Proof. repeat split; vm_compute; reflexivity. Qed.

(** C5, as amended: for every key [k] and [ttl > 0], on a store that works
    (for the write, for the read and for the delete that the read starts):
    [saveToCache k v ttl] writes an entry; in any later world that holds this store, once
    the clock reads past the entry's [expiresAt], [getFromCache k] resolves
    with none and leaves a store in which [k] has no entry at all. *)
Theorem expired_entry_is_evicted k v ttl w :
  0 < ttl →
  storage_healthy w →
  ∃ entry,
    idb (snd (saveToCache k v ttl w)) !! k = Some entry ∧
    ∀ w', idb w' = idb (snd (saveToCache k v ttl w)) →
          storage_healthy w' →
          next_now w' > expiresAt entry →
          fst (getFromCache k w') = Resolved None ∧
          idb (snd (getFromCache k w')) !! k = None.
Proof.
  intros _ Hw. eexists. split.
  { apply saveToCache_writes. by apply storage_healthy_next. }
  intros w' Hidb Hw' Hnow.
  rewrite getFromCache_run, (storage_healthy_next w' Hw'), Hidb.
  rewrite saveToCache_writes by by apply storage_healthy_next.
  rewrite bool_decide_eq_true_2 by done.
  rewrite deleteFromCache_run.
  assert (next_fault (snd (Date_now (pop_fault w'))) = Healthy) as ->.
  { apply (storage_healthy_next (pop_fault w')). by apply storage_healthy_pop. }
  split; [done|]. cbn. apply lookup_delete_eq.
Qed.

Lemma expired_entry_is_evicted_witness :
  ∃ entry,
    idb (snd (saveToCache "p1" (JList []) CACHE_TTL fresh_world)) !! "p1" = Some entry ∧
    fst (getFromCache "p1" later_world) = Resolved None ∧
    idb (snd (getFromCache "p1" later_world)) !! "p1" = None.
Proof.
  destruct (expired_entry_is_evicted "p1" (JList []) CACHE_TTL fresh_world)
    as [entry [Hentry Hget]].
  - reflexivity.
  - constructor.
  - exists entry. split; [exact Hentry|].
    apply (Hget later_world).
    + reflexivity.
    + constructor.
    + rewrite saveToCache_writes in Hentry by reflexivity.
      injection Hentry as <-. vm_compute. reflexivity.
Defined.

End StoreProperties.

(* ===================================================================== *)
(** ** The cache coordinator *)
(* ===================================================================== *)

Module CoordinatorProperties.
Import CacheService ApiService StoreFacts AppScenarios.

Section WithEndpoint.

Variable API_ENDPOINT : string.

Lemma merged_id id (updates : pictogram) :
  updates !! "id" = None → merged id updates !! "id" = Some (JStr id).
Proof.
  intros H. unfold merged. rewrite lookup_union_r by done. apply lookup_singleton_eq.
Qed.

Lemma merged_field id (updates : pictogram) k :
  k ≠ "id" → merged id updates !! k = updates !! k.
Proof.
  intros H. unfold merged. rewrite lookup_union, lookup_singleton_ne by done.
  by destruct (updates !! k).
Qed.

(** [invalidatePictogramCache]: the list is only reached when the delete of
    the record did not reject. *)
Lemma invalidatePictogramCache_run id w :
  invalidatePictogramCache id w =
  match deleteFromCache id w with
  | (Resolved _, w') => deleteFromCache LIST_CACHE_KEY w'
  | (Rejected e, w') => (Rejected e, w')
  end.
Proof. reflexivity. Qed.

Lemma invalidatePictogramCache_healthy id w :
  storage_healthy w →
  invalidatePictogramCache id w =
  (Resolved tt,
   set_idb (delete LIST_CACHE_KEY) (pop_fault (set_idb (delete id) (pop_fault w)))).
Proof.
  intros Hw. rewrite invalidatePictogramCache_run.
  rewrite deleteFromCache_run, (storage_healthy_next w Hw).
  rewrite deleteFromCache_run.
  assert (next_fault (set_idb (delete id) (pop_fault w)) = Healthy) as ->; [|done].
  apply (storage_healthy_next (pop_fault w)). by apply storage_healthy_pop.
Qed.

(** [updatePictogram], by how the [PATCH] ends. *)
Lemma updatePictogram_run id updates w :
  updatePictogram API_ENDPOINT id updates w =
  let w' := pop_fetch "PATCH" (API_ENDPOINT +:+ "/pictograms/" +:+ id) w in
  match next_fetch w with
  | NetFails e => (Rejected e, w')
  | NetResponds r =>
      if ok r then
        match body r with
        | Some updated =>
            match invalidatePictogramCache id w' with
            | (Resolved _, w'') => (Resolved updated, w'')
            | (Rejected e, w'') => (Rejected e, w'')
            end
        | None => (Rejected (Err "SyntaxError" "Unexpected token in JSON"), w')
        end
      else
        match invalidatePictogramCache id w' with
        | (Resolved _, w'') => (Resolved (JItem (merged id updates)), w'')
        | (Rejected e, w'') => (Rejected e, w'')
        end
  end.
Proof.
  unfold updatePictogram, fetch, mbind, M_bind, bind. cbn.
  destruct (next_fetch w) as [e|r]; [reflexivity|].
  destruct (ok r); cbn; [|reflexivity].
  unfold Response_json. destruct (body r); reflexivity.
Qed.

(** The soft failure, on a store that works: a response that is not [ok]
    makes [updatePictogram] resolve with [{ id, ...updates }], and neither
    the record nor the list is in the store afterwards. *)
Lemma update_soft_failure id updates w r :
  next_fetch w = NetResponds r →
  ok r = false →
  storage_healthy w →
  fst (updatePictogram API_ENDPOINT id updates w) = Resolved (JItem (merged id updates)) ∧
  idb (snd (updatePictogram API_ENDPOINT id updates w)) !! id = None ∧
  idb (snd (updatePictogram API_ENDPOINT id updates w)) !! LIST_CACHE_KEY = None.
Proof.
  intros Hnet Hok Hw. rewrite updatePictogram_run, Hnet, Hok. cbn zeta.
  rewrite invalidatePictogramCache_healthy by done. cbn.
  split; [done|]. split.
  - destruct (decide (id = LIST_CACHE_KEY)) as [->|Hne].
    + apply lookup_delete_eq.
    + rewrite lookup_delete_ne by done. apply lookup_delete_eq.
  - apply lookup_delete_eq.
Qed.

(** C1, the code where the claim fails: the [PATCH] is answered with a
    status outside 200-299 and the store request of the record's delete
    fails. [deleteFromCache] rejects, [invalidatePictogramCache] and
    [updatePictogram] await it outside any [try], and the update rejects with
    the request's error. The claim asks the call to resolve with [{ id,
    ...updates }]. *)
Theorem update_soft_failure_rejects_on_failed_delete id updates w r e :
  next_fetch w = NetResponds r →
  ok r = false →
  next_fault w = RequestFails e →
  fst (updatePictogram API_ENDPOINT id updates w) = Rejected e.
Proof.
  intros Hnet Hok Hf. rewrite updatePictogram_run, Hnet, Hok. cbn zeta.
  rewrite invalidatePictogramCache_run, deleteFromCache_run.
  change (next_fault (pop_fetch _ _ w)) with (next_fault w). by rewrite Hf.
Qed.

(** C3, as amended: when the [fetch] of an update itself rejects,
    [updatePictogram] rejects with the same error; it has touched neither
    the store nor the store's connection. *)
Theorem update_network_failure_propagates id updates w e :
  next_fetch w = NetFails e →
  updatePictogram API_ENDPOINT id updates w
  = (Rejected e, pop_fetch "PATCH" (API_ENDPOINT +:+ "/pictograms/" +:+ id) w).
Proof. intros Hnet. by rewrite updatePictogram_run, Hnet. Qed.

(** [createPictogram], by how the [POST] ends. *)
Lemma createPictogram_run p w :
  createPictogram API_ENDPOINT p w =
  let w' := pop_fetch "POST" (API_ENDPOINT +:+ "/pictograms") w in
  match next_fetch w with
  | NetFails e => (Rejected e, w')
  | NetResponds r =>
      if ok r then
        match body r with
        | Some created =>
            match deleteFromCache LIST_CACHE_KEY w' with
            | (Resolved _, w'') => (Resolved created, w'')
            | (Rejected e, w'') => (Rejected e, w'')
            end
        | None => (Rejected (Err "SyntaxError" "Unexpected token in JSON"), w')
        end
      else (Rejected (Err "Error" ("Failed to create pictogram: " +:+ statusText r)), w')
  end.
Proof.
  unfold createPictogram, fetch, mbind, M_bind, bind. cbn.
  destruct (next_fetch w) as [e|r]; [reflexivity|].
  destruct (ok r); cbn; [|reflexivity].
  unfold Response_json. destruct (body r); reflexivity.
Qed.

(** An unfiltered [listPictograms] on a store that has no list. *)
Lemma listPictograms_miss userId w :
  not_userId userId = true →
  storage_healthy w →
  idb w !! LIST_CACHE_KEY = None →
  listPictograms API_ENDPOINT userId w =
  let w' := pop_fetch "GET" (API_ENDPOINT +:+ "/pictograms") (pop_fault w) in
  match next_fetch w with
  | NetFails e => (Rejected e, w')
  | NetResponds r =>
      if ok r then
        match body r with
        | Some pictograms =>
            (Resolved pictograms, snd (cachePictogramList pictograms w'))
        | None => (Rejected (Err "SyntaxError" "Unexpected token in JSON"), w')
        end
      else (Rejected (Err "Error" ("Failed to list pictograms: " +:+ statusText r)), w')
  end.
Proof.
  intros Hu Hw Hmiss.
  unfold listPictograms, getCachedPictogramList, mbind, M_bind, bind. rewrite Hu.
  rewrite getFromCache_run, (storage_healthy_next w Hw), Hmiss.
  unfold fetch. change (next_fetch (pop_fault w)) with (next_fetch w). cbn zeta.
  destruct (next_fetch w) as [e|r]; [reflexivity|].
  destruct (ok r); cbn; [|reflexivity].
  unfold Response_json. destruct (body r) as [pictograms|]; [|reflexivity].
  cbn. unfold cachePictogramList. rewrite saveToCache_run.
  change (next_fault (pop_fetch _ _ (pop_fault w))) with (next_fault (pop_fault w)).
  rewrite (storage_healthy_next (pop_fault w)) by by apply storage_healthy_pop.
  reflexivity.
Qed.

Lemma saveToCache_fetched key data ttl w :
  fetched (snd (saveToCache key data ttl w)) = fetched w.
Proof. rewrite saveToCache_run. by destruct (next_fault w). Qed.

(** C6, as amended: the list is in the store, the store works (so that the
    invalidation reaches it) and [createPictogram] resolves. Then the store it leaves is the old one without the list entry:
    the list is invalidated and no record has been added. From any later
    world with this store, an unfiltered [listPictograms] calls [fetch] on
    the collection; its result is what the network gives (a rejection, an
    error for a response that is not [ok], or the fresh collection, which is
    then also the list entry of the store), never the collection cached
    before the create. *)
Theorem create_invalidates_list p w created :
  is_Some (idb w !! LIST_CACHE_KEY) →
  storage_healthy w →
  fst (createPictogram API_ENDPOINT p w) = Resolved created →
  idb (snd (createPictogram API_ENDPOINT p w)) = delete LIST_CACHE_KEY (idb w) ∧
  ∀ w' userId,
    idb w' = idb (snd (createPictogram API_ENDPOINT p w)) →
    storage_healthy w' →
    not_userId userId = true →
    fetched (snd (listPictograms API_ENDPOINT userId w'))
      = fetched w' ++ [("GET", API_ENDPOINT +:+ "/pictograms")] ∧
    (∀ e, next_fetch w' = NetFails e →
          fst (listPictograms API_ENDPOINT userId w') = Rejected e) ∧
    (∀ r, next_fetch w' = NetResponds r → ok r = false →
          rejects (fst (listPictograms API_ENDPOINT userId w'))) ∧
    (∀ r fresh, next_fetch w' = NetResponds r → ok r = true → body r = Some fresh →
          fst (listPictograms API_ENDPOINT userId w') = Resolved fresh ∧
          data <$> idb (snd (listPictograms API_ENDPOINT userId w')) !! LIST_CACHE_KEY
            = Some fresh).
Proof.
  intros _ Hw Hcreated.
  assert (idb (snd (createPictogram API_ENDPOINT p w)) = delete LIST_CACHE_KEY (idb w))
    as Hidb.
  { revert Hcreated. rewrite createPictogram_run. cbn zeta.
    destruct (next_fetch w) as [e|r]; [done|].
    destruct (ok r); [|done]. destruct (body r); [|done].
    rewrite deleteFromCache_run.
    change (next_fault (pop_fetch _ _ w)) with (next_fault w).
    by rewrite (storage_healthy_next w Hw). }
  split; [exact Hidb|].
  intros w' userId Hw'idb Hw' Hu.
  assert (idb w' !! LIST_CACHE_KEY = None) as Hmiss.
  { rewrite Hw'idb, Hidb. apply lookup_delete_eq. }
  rewrite (listPictograms_miss userId w' Hu Hw' Hmiss). cbn zeta.
  split; [|split; [|split]].
  - destruct (next_fetch w') as [e|r]; [done|].
    destruct (ok r); [|done]. destruct (body r); [|done].
    cbn. unfold cachePictogramList. by rewrite saveToCache_fetched.
  - by intros e ->.
  - intros r -> ->. by eexists.
  - intros r fresh -> -> ->. split; [done|]. cbn.
    unfold cachePictogramList. rewrite saveToCache_writes; [done|].
    change (next_fault (pop_fetch _ _ (pop_fault w'))) with (next_fault (pop_fault w')).
    apply storage_healthy_next. by apply storage_healthy_pop.
Qed.

End WithEndpoint.

Lemma update_soft_failure_rejects_on_failed_delete_witness :
  let w := cached_world [NetResponds not_found] [RequestFails store_error] in
  next_fetch w = NetResponds not_found ∧
  ok not_found = false ∧
  next_fault w = RequestFails store_error ∧
  fst (updatePictogram endpoint "p1" casa w) = Rejected store_error.
Proof.
  repeat (split; [reflexivity|]).
  apply (update_soft_failure_rejects_on_failed_delete endpoint "p1" casa
           (cached_world [NetResponds not_found] [RequestFails store_error])
           not_found store_error); reflexivity.
Defined.

(** C3, as stated, fails: the [fetch] of the update rejects, and
    [updatePictogram] rejects with it instead of resolving with [{ id,
    ...updates }]. *)
Lemma update_network_failure_is_hard :
  fst (updatePictogram endpoint "p1" casa (cached_world [NetFails offline] []))
    = Rejected offline ∧
  ¬ resolves (fst (updatePictogram endpoint "p1" casa (cached_world [NetFails offline] []))).
Proof.
  assert (fst (updatePictogram endpoint "p1" casa (cached_world [NetFails offline] []))
          = Rejected offline) as H by reflexivity.
  split; [exact H|]. rewrite H. intros [a Ha]. discriminate.
Qed.

Lemma update_network_failure_propagates_witness :
  let w := cached_world [NetFails offline] [] in
  next_fetch w = NetFails offline ∧
  updatePictogram endpoint "p1" casa w
  = (Rejected offline, pop_fetch "PATCH" (endpoint +:+ "/pictograms/" +:+ "p1") w).
Proof.
  split; [reflexivity|].
  apply (update_network_failure_propagates endpoint "p1" casa
           (cached_world [NetFails offline] []) offline).
  reflexivity.
Defined.

(** C6, as stated, fails. The list is cached and the create is confirmed,
    but the invalidation cannot open the database. The failure is logged
    and dropped: [createPictogram] resolves, the list entry stays, and the
    next unfiltered list read resolves with the collection cached before
    the create, without any [fetch]. *)
Lemma failed_invalidation_keeps_stale_list :
  let w := cached_world [NetResponds created_response] [OpenFails store_error] in
  let w' := World (idb (snd (createPictogram endpoint casa w)))
                  3000 [] [] [NetResponds list_response] [] in
  data <$> idb w !! LIST_CACHE_KEY = Some old_list ∧
  fst (createPictogram endpoint casa w) = Resolved created_casa ∧
  data <$> idb (snd (createPictogram endpoint casa w)) !! LIST_CACHE_KEY = Some old_list ∧
  fst (listPictograms endpoint None w') = Resolved old_list ∧
  fetched (snd (listPictograms endpoint None w')) = [].
Proof. repeat split; vm_compute; reflexivity. Qed.

Lemma create_invalidates_list_witness :
  let w := cached_world [NetResponds created_response] [] in
  is_Some (idb w !! LIST_CACHE_KEY) ∧
  fst (createPictogram endpoint casa w) = Resolved created_casa ∧
  idb (snd (createPictogram endpoint casa w)) = delete LIST_CACHE_KEY (idb w) ∧
  fetched (snd (listPictograms endpoint None after_create))
    = [("GET", endpoint +:+ "/pictograms")] ∧
  fst (listPictograms endpoint None after_create) = Resolved fresh_list ∧
  data <$> idb (snd (listPictograms endpoint None after_create)) !! LIST_CACHE_KEY
    = Some fresh_list.
Proof.
  assert (is_Some (idb (cached_world [NetResponds created_response] [])
                     !! LIST_CACHE_KEY)) as Hlist.
  { eexists. vm_compute. reflexivity. }
  assert (fst (createPictogram endpoint casa (cached_world [NetResponds created_response] []))
          = Resolved created_casa) as Hcreated.
  { vm_compute. reflexivity. }
  destruct (create_invalidates_list endpoint casa
              (cached_world [NetResponds created_response] []) created_casa
              Hlist ltac:(constructor) Hcreated) as [Hidb Hnext].
  destruct (Hnext after_create None eq_refl ltac:(constructor) eq_refl)
    as (Hfetched & _ & _ & Hfresh).
  destruct (Hfresh list_response fresh_list eq_refl eq_refl eq_refl) as [Hres Hstore].
  cbn zeta. repeat split; assumption.
Defined.

End CoordinatorProperties.

(* ===================================================================== *)
(** ** The request proxy *)
(* ===================================================================== *)

Module ProxyFacts.
Import ServiceWorker.

Lemma fetched_opened cache w : fetched (opened cache w) = fetched w.
Proof. unfold opened. by destruct (caches w !! cache). Qed.

Lemma network_opened cache w : network (opened cache w) = network w.
Proof. unfold opened. by destruct (caches w !! cache). Qed.

Lemma writing_opened cache w : writing (opened cache w) = writing w.
Proof. unfold opened. by destruct (caches w !! cache). Qed.

Lemma next_fetch_opened cache w : next_fetch (opened cache w) = next_fetch w.
Proof. unfold next_fetch. by rewrite network_opened. Qed.

Lemma stored_opened cache cache' request w :
  stored (caches (opened cache w)) cache' request = stored (caches w) cache' request.
Proof.
  unfold opened, stored.
  destruct (bool_decide (method request = "GET")); [|done].
  destruct (caches w !! cache) eqn:Hc; [done|]. cbn.
  destruct (decide (cache = cache')) as [->|Hne].
  - by rewrite lookup_insert_eq, Hc.
  - by rewrite lookup_insert_ne.
Qed.

Lemma caches_opened_pop_fetch cache request w :
  caches (opened cache (pop_fetch request w)) = caches (opened cache w).
Proof. unfold opened. cbn. by destruct (caches w !! cache). Qed.

(** Once the browser has completed the writes, the last one started for a
    [GET] request, with a response that is not a 206, is the copy that
    answers it. *)
Lemma stored_last_write cs ws cache request response :
  method request = "GET" →
  status response ≠ 206 →
  stored (foldl complete_put cs (ws ++ [(cache, request, response)])) cache request
  = Some response.
Proof.
  intros Hget Hstatus. unfold stored. rewrite foldl_app. cbn. unfold storable.
  rewrite !bool_decide_eq_true_2 by done.
  rewrite bool_decide_eq_false_2 by done. cbn.
  rewrite lookup_insert_eq. cbn. apply lookup_insert_eq.
Qed.

(** A write that the Cache API rejects leaves the caches as the writes
    before it left them. *)
Lemma rejected_last_write cs ws cache request response :
  storable request response = false →
  foldl complete_put cs (ws ++ [(cache, request, response)]) = foldl complete_put cs ws.
Proof. intros H. rewrite foldl_app. cbn. by rewrite H. Qed.

Lemma stored_after_settle cache request response w ws :
  method request = "GET" →
  status response ≠ 206 →
  writing w = ws ++ [(cache, request, response)] →
  stored (caches (settle w)) cache request = Some response.
Proof.
  intros Hget Hstatus Hw. unfold settle. cbn. rewrite Hw. by apply stored_last_write.
Qed.

Lemma stored_complete_put cs cache request response :
  method request = "GET" →
  status response ≠ 206 →
  stored (complete_put cs (cache, request, response)) cache request = Some response.
Proof. intros Hget Hstatus. by apply (stored_last_write cs []). Qed.

Lemma complete_put_partial cs cache request response :
  status response = 206 → complete_put cs (cache, request, response) = cs.
Proof.
  intros Hstatus. unfold complete_put, storable.
  rewrite (bool_decide_eq_true_2 (status response = 206)) by done.
  by rewrite andb_false_r.
Qed.

(** What the caches hold, once the browser has completed every write, after
    one more write was started. *)
Lemma caches_settle_put_start cache request response w :
  caches (settle (snd (Cache_put_start cache request response w)))
  = complete_put (caches (settle w)) (cache, request, response).
Proof. unfold settle. cbn. by rewrite foldl_app. Qed.

Lemma caches_settle_started cache request response w :
  caches (settle (snd (Cache_put_start cache request response
                         (opened cache (pop_fetch request w)))))
  = complete_put (caches (settle (opened cache w))) (cache, request, response).
Proof.
  rewrite caches_settle_put_start. unfold settle. cbn [caches].
  by rewrite !writing_opened, caches_opened_pop_fetch.
Qed.

Lemma cacheFirstStrategy_run request cacheName w :
  cacheFirstStrategy request cacheName w =
  let w1 := opened cacheName w in
  match stored (caches w) cacheName request with
  | Some copy => (Resolved copy, w1)
  | None =>
      match next_fetch w with
      | NetFails e => (Rejected e, pop_fetch request w1)
      | NetResponds r =>
          (Resolved r,
           if ok r
           then snd (Cache_put_start cacheName request r (pop_fetch request w1))
           else pop_fetch request w1)
      end
  end.
Proof.
  unfold cacheFirstStrategy, mbind, M_bind, bind, try_catch, Cache_match, caches_open.
  cbn. rewrite stored_opened.
  destruct (stored (caches w) cacheName request); [reflexivity|].
  unfold fetch. rewrite next_fetch_opened.
  destruct (next_fetch w) as [e|r]; [reflexivity|].
  destruct (ok r); reflexivity.
Qed.

Lemma networkFirstStrategy_run request cacheName w :
  networkFirstStrategy request cacheName w =
  let w1 := pop_fetch request w in
  match next_fetch w with
  | NetResponds r =>
      (Resolved r,
       if ok r && bool_decide (method request = "GET")
       then snd (Cache_put_start cacheName request r (opened cacheName w1))
       else w1)
  | NetFails e =>
      (match stored (caches w) cacheName request with
       | Some copy => Resolved copy
       | None => Rejected e
       end, opened cacheName w1)
  end.
Proof.
  unfold networkFirstStrategy, mbind, M_bind, bind, try_catch, Cache_match, fetch,
    caches_open. cbn.
  destruct (next_fetch w) as [e|r].
  - rewrite stored_opened. change (caches (pop_fetch request w)) with (caches w).
    destruct (stored (caches w) cacheName request); reflexivity.
  - destruct (ok r && bool_decide (method request = "GET")); reflexivity.
Qed.

Lemma staleWhileRevalidateStrategy_run request cacheName w :
  staleWhileRevalidateStrategy request cacheName w =
  let w1 := pop_fetch request (opened cacheName w) in
  let cached := stored (caches w) cacheName request in
  match next_fetch w with
  | NetFails _ => (Resolved cached, w1)
  | NetResponds r =>
      (Resolved (match cached with Some copy => Some copy | None => Some r end),
       if ok r then snd (Cache_put_start cacheName request r w1) else w1)
  end.
Proof.
  unfold staleWhileRevalidateStrategy, mbind, M_bind, bind, try_catch, new_Promise,
    Cache_match, fetch, caches_open. cbn.
  rewrite stored_opened, next_fetch_opened.
  destruct (next_fetch w) as [e|r].
  - by destruct (stored (caches w) cacheName request).
  - destruct (ok r); by destruct (stored (caches w) cacheName request).
Qed.

End ProxyFacts.

Module ProxyProperties.
Import ServiceWorker ProxyFacts ProxyScenarios.

(** The listener hands each partition to its strategy and its cache. *)
Lemma on_fetch_api request w :
  classify request = AuthoritativeApi →
  on_fetch request w =
  match networkFirstStrategy request CACHE_NAMES_api w with
  | (Resolved response, w') => (Resolved (Some response), w')
  | (Rejected e, w') => (Rejected e, w')
  end.
Proof. intros H. unfold on_fetch. rewrite H. reflexivity. Qed.

Lemma on_fetch_media request w :
  classify request = ImmutableMedia →
  on_fetch request w =
  match cacheFirstStrategy request CACHE_NAMES_images w with
  | (Resolved response, w') => (Resolved (Some response), w')
  | (Rejected e, w') => (Rejected e, w')
  end.
Proof. intros H. unfold on_fetch. rewrite H. reflexivity. Qed.

(** C7: for every request of the authoritative-API partition the listener
    answers network first. The [fetch] is made in every case. When a
    response arrives it is the answer, whatever the cache holds; a cache
    write is started exactly when the response is [ok] and the method is
    [GET] (the read-only method the code tests for); once the write is
    complete its copy is the stored one, except for a response of status
    206, which the Cache API refuses and which leaves the caches as they
    were; without a write the world is left as the [fetch] left it. When the
    [fetch] rejects, the answer is the copy
    stored for the request if there is one, and the rejection of the
    [fetch] if there is none. *)
Theorem network_first_for_api request w :
  classify request = AuthoritativeApi →
  fetched (snd (on_fetch request w)) = fetched w ++ [request] ∧
  (∀ r, next_fetch w = NetResponds r →
     fst (on_fetch request w) = Resolved (Some r) ∧
     if ok r && bool_decide (method request = "GET")
     then writing (snd (on_fetch request w))
            = writing w ++ [(CACHE_NAMES_api, request, r)] ∧
          (if bool_decide (status r = 206)
           then caches (settle (snd (on_fetch request w)))
                  = caches (settle (opened CACHE_NAMES_api w))
           else stored (caches (settle (snd (on_fetch request w))))
                       CACHE_NAMES_api request = Some r)
     else snd (on_fetch request w) = pop_fetch request w) ∧
  (∀ e, next_fetch w = NetFails e →
     writing (snd (on_fetch request w)) = writing w ∧
     fst (on_fetch request w) =
       match stored (caches w) CACHE_NAMES_api request with
       | Some copy => Resolved (Some copy)
       | None => Rejected e
       end).
Proof.
  intros Hc. rewrite (on_fetch_api request w Hc), networkFirstStrategy_run. cbn zeta.
  split; [|split].
  - destruct (next_fetch w) as [e|r].
    + destruct (stored (caches w) CACHE_NAMES_api request); cbn;
        by rewrite fetched_opened.
    + destruct (ok r && bool_decide (method request = "GET")); cbn;
        [by rewrite fetched_opened | done].
  - intros r ->. cbn [fst snd]. split; [done|].
    destruct (ok r && bool_decide (method request = "GET")) eqn:Hok; [|done].
    apply andb_true_iff in Hok as [_ Hget]. apply bool_decide_eq_true_1 in Hget.
    split; [cbn; by rewrite writing_opened|].
    rewrite caches_settle_started. case_bool_decide as Hstatus.
    + by apply complete_put_partial.
    + by apply stored_complete_put.
  - intros e ->.
    destruct (stored (caches w) CACHE_NAMES_api request); cbn;
      by rewrite writing_opened.
Qed.

Lemma network_first_for_api_witness :
  classify list_request = AuthoritativeApi ∧
  fst (on_fetch list_request (online [NetResponds listing])) = Resolved (Some listing) ∧
  stored (caches (settle (snd (on_fetch list_request (online [NetResponds listing])))))
         CACHE_NAMES_api list_request = Some listing ∧
  fst (on_fetch list_request offline_with_copy) = Resolved (Some listing) ∧
  fst (on_fetch list_request (online [])) = Rejected network_down.
Proof.
  assert (classify list_request = AuthoritativeApi) as Hc by (vm_compute; reflexivity).
  split; [exact Hc|].
  destruct (network_first_for_api list_request (online [NetResponds listing]) Hc)
    as (_ & Hresp & _).
  destruct (Hresp listing eq_refl) as [Hanswer Hwrite].
  destruct (network_first_for_api list_request offline_with_copy Hc) as (_ & _ & Hcopy).
  destruct (Hcopy network_down eq_refl) as [_ Hserved].
  destruct (network_first_for_api list_request (online []) Hc) as (_ & _ & Hnone).
  destruct (Hnone network_down eq_refl) as [_ Hfailed].
  split; [exact Hanswer|].
  split; [exact (proj2 Hwrite)|].
  split; [exact Hserved | exact Hfailed].
Defined.

(** C8, as stated, fails. A picture is fetched with empty caches and the
    network answers once: the picture is returned, but no copy of it is
    stored when the strategy returns, and the same request made at that
    point, with the network down, is rejected. An upload to the bucket is a
    [PUT]: the write that the strategy starts stores nothing, and the
    second request is rejected even after the browser has completed every
    write. So it is for a picture that the network answers with a 206. *)
Lemma cache_first_second_fetch_can_fail :
  classify picture = ImmutableMedia ∧
  fst (on_fetch picture (online [NetResponds png])) = Resolved (Some png) ∧
  caches (snd (on_fetch picture (online [NetResponds png]))) !! CACHE_NAMES_images
    ≫= (.!! href (url picture)) = None ∧
  fst (on_fetch picture (snd (on_fetch picture (online [NetResponds png]))))
    = Rejected network_down ∧
  classify upload = ImmutableMedia ∧
  fst (on_fetch upload (online [NetResponds png])) = Resolved (Some png) ∧
  caches (settle (snd (on_fetch upload (online [NetResponds png])))) !! CACHE_NAMES_images
    ≫= (.!! href (url upload)) = None ∧
  fst (on_fetch upload (settle (snd (on_fetch upload (online [NetResponds png])))))
    = Rejected network_down ∧
  ok partial_content = true ∧
  fst (on_fetch picture (online [NetResponds partial_content]))
    = Resolved (Some partial_content) ∧
  fst (on_fetch picture
         (settle (snd (on_fetch picture (online [NetResponds partial_content])))))
    = Rejected network_down.
Proof. repeat split; vm_compute; reflexivity. Qed.

(** C8, as amended: for every request of the immutable-media partition the
    listener answers cache first. A stored copy is the answer, and no
    [fetch] is made. Without one the [fetch] is made; its rejection is the
    answer's rejection; a response is the answer, and when it is [ok] a cache
    write is started and not awaited. When the Cache API accepts that write
    (a [GET] request, a response that is not a 206), once the browser has
    completed it the copy is stored, and from then on the same request is
    answered with it without any [fetch], whatever the network; when the
    Cache API refuses it, the caches are left as they were. *)
Theorem cache_first_for_media request w :
  classify request = ImmutableMedia →
  (∀ copy, stored (caches w) CACHE_NAMES_images request = Some copy →
     fst (on_fetch request w) = Resolved (Some copy) ∧
     fetched (snd (on_fetch request w)) = fetched w ∧
     network (snd (on_fetch request w)) = network w) ∧
  (stored (caches w) CACHE_NAMES_images request = None →
     fetched (snd (on_fetch request w)) = fetched w ++ [request] ∧
     (∀ e, next_fetch w = NetFails e → fst (on_fetch request w) = Rejected e) ∧
     (∀ r, next_fetch w = NetResponds r →
        fst (on_fetch request w) = Resolved (Some r) ∧
        writing (snd (on_fetch request w))
          = writing w ++ (if ok r then [(CACHE_NAMES_images, request, r)] else []) ∧
        (ok r = true →
         if storable request r
         then ∀ w', caches w' = caches (settle (snd (on_fetch request w))) →
                    fst (on_fetch request w') = Resolved (Some r) ∧
                    fetched (snd (on_fetch request w')) = fetched w'
         else caches (settle (snd (on_fetch request w)))
                = caches (settle (opened CACHE_NAMES_images w))))).
Proof.
  intros Hc.
  assert (∀ w0 copy, stored (caches w0) CACHE_NAMES_images request = Some copy →
     fst (on_fetch request w0) = Resolved (Some copy) ∧
     fetched (snd (on_fetch request w0)) = fetched w0 ∧
     network (snd (on_fetch request w0)) = network w0) as Hhit.
  { intros w0 copy Hs. rewrite (on_fetch_media request w0 Hc), cacheFirstStrategy_run, Hs.
    cbn. by rewrite fetched_opened, network_opened. }
  split; [by apply Hhit|].
  intros Hmiss. rewrite (on_fetch_media request w Hc), cacheFirstStrategy_run, Hmiss.
  cbn zeta. split; [|split].
  - destruct (next_fetch w) as [e|r]; cbn; [by rewrite fetched_opened|].
    destruct (ok r); cbn; by rewrite fetched_opened.
  - by intros e ->.
  - intros r ->. cbn [fst snd]. split; [done|]. split.
    + destruct (ok r); cbn; rewrite writing_opened; [done|by rewrite app_nil_r].
    + intros Hok. rewrite Hok, caches_settle_put_start.
      change (caches (settle (pop_fetch request (opened CACHE_NAMES_images w))))
        with (caches (settle (opened CACHE_NAMES_images w))).
      destruct (storable request r) eqn:Hst.
      * intros w' Hw'. destruct (Hhit w' r) as (H1 & H2 & _); [|done].
        rewrite Hw'. unfold storable in Hst.
        apply andb_true_iff in Hst as [Hget Hstatus].
        apply bool_decide_eq_true_1 in Hget.
        apply negb_true_iff, bool_decide_eq_false_1 in Hstatus.
        by apply stored_complete_put.
      * unfold complete_put. by rewrite Hst.
Qed.

Lemma cache_first_for_media_witness :
  classify picture = ImmutableMedia ∧
  fst (on_fetch picture (online [NetResponds png])) = Resolved (Some png) ∧
  writing (snd (on_fetch picture (online [NetResponds png])))
    = [(CACHE_NAMES_images, picture, png)] ∧
  let settled := settle (snd (on_fetch picture (online [NetResponds png]))) in
  fst (on_fetch picture settled) = Resolved (Some png) ∧
  fetched (snd (on_fetch picture settled)) = fetched settled.
Proof.
  assert (classify picture = ImmutableMedia) as Hc by (vm_compute; reflexivity).
  split; [exact Hc|].
  destruct (cache_first_for_media picture (online [NetResponds png]) Hc) as [_ Hmiss].
  destruct (Hmiss ltac:(vm_compute; reflexivity)) as (_ & _ & Hresp).
  destruct (Hresp png eq_refl) as (Hanswer & Hwriting & Hlater).
  split; [exact Hanswer|]. split; [exact Hwriting|].
  exact (Hlater eq_refl _ eq_refl).
Defined.

(** C9: in the stale-while-revalidate strategy, when no copy is stored for
    the request and the [fetch] rejects, the strategy resolves with
    [undefined]: the rejection does not reach the caller. *)
Theorem stale_while_revalidate_swallows_failure request cacheName w e :
  stored (caches w) cacheName request = None →
  next_fetch w = NetFails e →
  fst (staleWhileRevalidateStrategy request cacheName w) = Resolved None.
Proof.
  intros Hmiss Hnet. by rewrite staleWhileRevalidateStrategy_run, Hnet, Hmiss.
Qed.

Lemma stale_while_revalidate_swallows_failure_witness :
  stored (caches (online [])) CACHE_NAMES_static page = None ∧
  next_fetch (online []) = NetFails network_down ∧
  fst (staleWhileRevalidateStrategy page CACHE_NAMES_static (online [])) = Resolved None.
Proof.
  split; [reflexivity|]. split; [reflexivity|].
  apply (stale_while_revalidate_swallows_failure page CACHE_NAMES_static (online [])
           network_down); reflexivity.
Defined.

(** The [install] listener never lets the precaching fail the install. *)
Lemma on_install_run w :
  ∃ w', on_install w = (Resolved tt, w') ∧ skip_waiting_flag w' = true.
Proof.
  unfold on_install, mbind, M_bind, bind, new_Promise, try_catch, caches_open,
    skipWaiting, await.
  destruct (Cache_addAll _ _ _) as [[[]|e] w']; cbn; eauto.
Qed.

(** Without the flag, an installed instance waits for as long as an older one
    controls pages; handling [SKIP_WAITING] is the other way to set it. *)
Lemma waits_without_flag w :
  skip_waiting_flag w = false → after_install (Resolved tt) true w = Installed.
Proof. intros H. unfold after_install. by rewrite H. Qed.

Lemma skip_waiting_message_sets_flag w :
  skip_waiting_flag (snd (on_message SKIP_WAITING w)) = true.
Proof. reflexivity. Qed.

(** C10: the [install] listener calls [skipWaiting] whatever else happens.
    From any world, in particular one where no [SKIP_WAITING] message has
    set the flag, the install succeeds, the flag is set when the listener
    is done, and the browser takes the instance to activation whether or
    not an older instance controls pages. *)
Theorem install_skips_waiting w older_in_control :
  fst (on_install w) = Resolved tt ∧
  skip_waiting_flag (snd (on_install w)) = true ∧
  after_install (fst (on_install w)) older_in_control (snd (on_install w)) = Activating.
Proof.
  destruct (on_install_run w) as (w' & -> & Hflag). cbn.
  split; [done|]. split; [done|]. by rewrite Hflag.
Qed.

End ProxyProperties.

(* ===================================================================== *)
(** ** More on the structured client store *)
(* ===================================================================== *)

Module StoreExtras.
Import CacheService StoreFacts AppScenarios MoreScenarios.

(** Arithmetic on the readings of the clock of a world [w]. *)
Ltac clock_arith w :=
  destruct w as [? ? tks ? ? ?];
  cbv [written_entry next_now Date_now pop_fault set_idb snd clock ticks
       expiresAt timestamp];
  do 4 (try destruct tks as [|? tks]); cbn [hd tl]; lia.

(** X1: a write followed at once by a read of the same key, on a store that
    works. The read gives the payload back unless more than [ttl]
    milliseconds passed since the write read the clock for [expiresAt]; an
    entry is still served at [expiresAt] itself. *)
Theorem put_then_get k v ttl w :
  storage_healthy w →
  fst (getFromCache k (snd (saveToCache k v ttl w)))
  = if bool_decide (Z.of_N (hd 0%N (tl (tl (ticks w)))) > ttl)
    then Resolved None
    else Resolved (Some v).
Proof.
  intros Hw. rewrite saveToCache_run, (storage_healthy_next w Hw). cbn [snd].
  rewrite getFromCache_run.
  assert (next_fault (set_idb (insert k (written_entry v ttl (pop_fault w)))
            (snd (Date_now (snd (Date_now (pop_fault w)))))) = Healthy) as ->.
  { apply (storage_healthy_next (pop_fault w)). by apply storage_healthy_pop. }
  cbn [idb set_idb]. rewrite lookup_insert_eq.
  rewrite (bool_decide_ext _ (Z.of_N (hd 0%N (tl (tl (ticks w)))) > ttl)).
  - by case_bool_decide.
  - clock_arith w.
Qed.

Lemma put_then_get_witness :
  fst (getFromCache "p1" (snd (saveToCache "p1" old_list CACHE_TTL fresh_world)))
  = Resolved (Some old_list).
Proof.
  exact (put_then_get "p1" old_list CACHE_TTL fresh_world ltac:(constructor)).
Defined.

(** X2: after a delete, a read of the key gives none, whatever was stored
    and whether or not it had expired. *)
Theorem delete_then_get k w :
  storage_healthy w →
  fst (getFromCache k (snd (deleteFromCache k w))) = Resolved None.
Proof.
  intros Hw. rewrite deleteFromCache_run, (storage_healthy_next w Hw). cbn [snd].
  rewrite getFromCache_run.
  assert (next_fault (set_idb (delete k) (pop_fault w)) = Healthy) as ->.
  { apply (storage_healthy_next (pop_fault w)). by apply storage_healthy_pop. }
  cbn [idb set_idb]. by rewrite lookup_delete_eq.
Qed.

Lemma delete_then_get_witness :
  idb (cached_world [] []) !! "p1" ≠ None ∧
  fst (getFromCache "p1" (snd (deleteFromCache "p1" (cached_world [] [])))) = Resolved None.
Proof.
  split; [vm_compute; discriminate|].
  exact (delete_then_get "p1" (cached_world [] []) ltac:(constructor)).
Defined.

(** X3: deleting is idempotent, and deleting a key that has no entry leaves
    the store as it is. *)
Theorem delete_idempotent k w :
  storage_healthy w →
  idb (snd (deleteFromCache k (snd (deleteFromCache k w))))
    = idb (snd (deleteFromCache k w)) ∧
  (idb w !! k = None → idb (snd (deleteFromCache k w)) = idb w).
Proof.
  intros Hw. rewrite (deleteFromCache_run k w), (storage_healthy_next w Hw). cbn [snd].
  rewrite deleteFromCache_run.
  assert (next_fault (set_idb (delete k) (pop_fault w)) = Healthy) as ->.
  { apply (storage_healthy_next (pop_fault w)). by apply storage_healthy_pop. }
  cbn. split; [apply delete_delete_eq | apply delete_id].
Qed.

Lemma delete_idempotent_witness :
  idb (snd (deleteFromCache "p1" (snd (deleteFromCache "p1" (cached_world [] [])))))
    = idb (snd (deleteFromCache "p1" (cached_world [] []))) ∧
  idb (snd (deleteFromCache "p7" (cached_world [] []))) = idb (cached_world [] []).
Proof.
  split.
  - exact (proj1 (delete_idempotent "p1" (cached_world [] []) ltac:(constructor))).
  - apply (proj2 (delete_idempotent "p7" (cached_world [] []) ltac:(constructor))).
    vm_compute. reflexivity.
Defined.

(** X4: a write or a delete under one key never touches the entry of
    another key, whatever happens to the operation. *)
Theorem other_keys_untouched k k' v ttl w :
  k ≠ k' →
  idb (snd (saveToCache k v ttl w)) !! k' = idb w !! k' ∧
  idb (snd (deleteFromCache k w)) !! k' = idb w !! k'.
Proof.
  intros Hne. rewrite saveToCache_run, deleteFromCache_run.
  destruct (next_fault w); cbn; split; try reflexivity.
  - by apply lookup_insert_ne.
  - by apply lookup_delete_ne.
Qed.

Lemma other_keys_untouched_witness :
  idb (snd (saveToCache "p2" old_list CACHE_TTL (cached_world [] []))) !! "p1"
    = idb (cached_world [] []) !! "p1" ∧
  idb (snd (deleteFromCache "p2" (cached_world [] []))) !! "p1"
    = idb (cached_world [] []) !! "p1".
Proof.
  apply (other_keys_untouched "p2" "p1" old_list CACHE_TTL (cached_world [] [])).
  vm_compute. discriminate.
Defined.

(** X5: a second write under a key replaces the first: the key holds one
    entry, with the second payload and an expiry computed from the second
    [ttl]; no key is added. *)
Theorem put_overwrites k v1 ttl1 v2 ttl2 w :
  storage_healthy w →
  ∃ entry,
    idb (snd (saveToCache k v2 ttl2 (snd (saveToCache k v1 ttl1 w)))) !! k = Some entry ∧
    data entry = v2 ∧
    expiresAt entry - timestamp entry - ttl2
      = Z.of_N (hd 0%N (tl (tl (tl (ticks w))))) ∧
    dom (idb (snd (saveToCache k v2 ttl2 (snd (saveToCache k v1 ttl1 w)))))
      = {[k]} ∪ dom (idb w).
Proof.
  intros Hw. rewrite (saveToCache_run k v1), (storage_healthy_next w Hw). cbn [snd].
  rewrite saveToCache_run.
  assert (next_fault (set_idb (insert k (written_entry v1 ttl1 (pop_fault w)))
            (snd (Date_now (snd (Date_now (pop_fault w)))))) = Healthy) as ->.
  { apply (storage_healthy_next (pop_fault w)). by apply storage_healthy_pop. }
  eexists. split; [cbn; apply lookup_insert_eq|].
  split; [reflexivity|]. split.
  - cbn [idb set_idb]. clock_arith w.
  - cbn. rewrite insert_insert_eq. apply dom_insert_L.
Qed.

Lemma put_overwrites_witness :
  ∃ entry,
    idb (snd (saveToCache "p1" fresh_list 10
           (snd (saveToCache "p1" old_list CACHE_TTL fresh_world)))) !! "p1" = Some entry ∧
    data entry = fresh_list ∧
    expiresAt entry - timestamp entry - 10 = 0 ∧
    dom (idb (snd (saveToCache "p1" fresh_list 10
                (snd (saveToCache "p1" old_list CACHE_TTL fresh_world)))))
      = {["p1"]} ∪ dom (idb fresh_world).
Proof.
  exact (put_overwrites "p1" old_list CACHE_TTL fresh_list 10 fresh_world ltac:(constructor)).
Defined.

(** X6: a read never serves an expired entry. Whatever happens to the
    operation, a payload that [getFromCache] resolves with is the payload of
    the entry stored under the key, and the clock has not passed its
    [expiresAt]. *)
Theorem get_serves_only_live_entries k w v :
  fst (getFromCache k w) = Resolved (Some v) →
  ∃ entry, idb w !! k = Some entry ∧ data entry = v ∧ next_now w ≤ expiresAt entry.
Proof.
  rewrite getFromCache_run.
  destruct (next_fault w); try discriminate.
  destruct (idb w !! k) as [entry|]; [|discriminate].
  case_bool_decide; [discriminate|].
  cbn. intros [= <-]. exists entry. split; [done|]. split; [done|lia].
Qed.

Lemma get_serves_only_live_entries_witness :
  fst (getFromCache "p1" (cached_world [] [])) = Resolved (Some (JItem perro)) ∧
  ∃ entry, idb (cached_world [] []) !! "p1" = Some entry ∧
           data entry = JItem perro ∧
           next_now (cached_world [] []) ≤ expiresAt entry.
Proof.
  assert (fst (getFromCache "p1" (cached_world [] [])) = Resolved (Some (JItem perro)))
    as H by (vm_compute; reflexivity).
  split; [exact H|].
  exact (get_serves_only_live_entries "p1" (cached_world [] []) (JItem perro) H).
Defined.

(** X7: a read changes the store in one case only, the expired entry under
    its own key, which it deletes. An operation that does not reach the
    store or whose request fails, a miss and a live entry each leave the
    store exactly as it was; and a store that differs afterwards is the old
    one without that key, read by an operation that worked and found the
    entry expired. *)
Theorem get_removes_only_expired k w :
  (next_fault w ≠ Healthy → idb (snd (getFromCache k w)) = idb w) ∧
  (idb w !! k = None → idb (snd (getFromCache k w)) = idb w) ∧
  (∀ entry, idb w !! k = Some entry → next_now w ≤ expiresAt entry →
            idb (snd (getFromCache k w)) = idb w) ∧
  (idb (snd (getFromCache k w)) ≠ idb w →
   idb (snd (getFromCache k w)) = delete k (idb w) ∧
   next_fault w = Healthy ∧
   ∃ entry, idb w !! k = Some entry ∧ next_now w > expiresAt entry).
Proof.
  rewrite getFromCache_run.
  destruct (next_fault w) eqn:Hf.
  - destruct (idb w !! k) as [entry|] eqn:Hk.
    + case_bool_decide as Hnow.
      * rewrite deleteFromCache_run.
        split; [done|]. split; [done|]. split; [intros ? [= <-] ?; lia|].
        match goal with
        | |- context [match next_fault ?x with _ => _ end] => destruct (next_fault x)
        end; cbn; try done.
        intros _. split; [done|]. split; [done|]. by exists entry.
      * cbn. split; [done|]. split; [done|]. split; done.
    + cbn. split; [done|]. split; [done|]. split; done.
  - cbn. split; [done|]. split; [done|]. split; done.
  - cbn. split; [done|]. split; [done|]. split; done.
  - cbn. split; [done|]. split; [done|]. split; done.
Qed.

Lemma get_removes_only_expired_witness :
  idb (snd (getFromCache "p1" (expired_world [OpenFails store_error])))
    = idb (expired_world [OpenFails store_error]) ∧
  idb (snd (getFromCache "p7" (expired_world []))) = idb (expired_world []) ∧
  idb (snd (getFromCache "p1" (cached_world [] []))) = idb (cached_world [] []) ∧
  idb (snd (getFromCache "p1" (expired_world []))) = delete "p1" (idb (expired_world [])).
Proof.
  split; [|split; [|split]].
  - apply (proj1 (get_removes_only_expired "p1" (expired_world [OpenFails store_error]))).
    discriminate.
  - apply (proj1 (proj2 (get_removes_only_expired "p7" (expired_world [])))).
    vm_compute. reflexivity.
  - apply (proj1 (proj2 (proj2 (get_removes_only_expired "p1" (cached_world [] []))))
             {| data := JItem perro; timestamp := 1000; expiresAt := 301000 |}).
    + vm_compute. reflexivity.
    + vm_compute. discriminate.
  - apply (proj2 (proj2 (proj2 (get_removes_only_expired "p1" (expired_world []))))).
    intros Heq.
    assert (idb (snd (getFromCache "p1" (expired_world []))) !! "p1" = None) as Hgone
      by (vm_compute; reflexivity).
    rewrite Heq in Hgone. vm_compute in Hgone. discriminate.
Defined.

(** X8: the delete that a read starts for an expired entry is not awaited:
    when that delete fails in any way, the read still resolves with none, and
    the expired entry stays in the store. *)
Theorem expired_get_hides_failed_cleanup k w entry f fs :
  faults w = Healthy :: f :: fs →
  f ≠ Healthy →
  idb w !! k = Some entry →
  next_now w > expiresAt entry →
  fst (getFromCache k w) = Resolved None ∧
  idb (snd (getFromCache k w)) !! k = Some entry.
Proof.
  intros Hf Hbad Hk Hnow. rewrite getFromCache_run.
  unfold next_fault at 1. rewrite Hf. cbn [hd]. rewrite Hk.
  rewrite bool_decide_eq_true_2 by done. split; [done|].
  rewrite deleteFromCache_run. unfold next_fault, pop_fault, Date_now. cbn.
  rewrite Hf. cbn. by destruct f.
Qed.

Lemma expired_get_hides_failed_cleanup_witness :
  let w := expired_world [Healthy; OpenFails store_error] in
  fst (getFromCache "p1" w) = Resolved None ∧
  idb (snd (getFromCache "p1" w)) !! "p1"
    = Some {| data := JItem perro; timestamp := 1000; expiresAt := 301000 |}.
Proof.
  apply (expired_get_hides_failed_cleanup "p1"
           (expired_world [Healthy; OpenFails store_error])
           {| data := JItem perro; timestamp := 1000; expiresAt := 301000 |}
           (OpenFails store_error) []).
  - reflexivity.
  - discriminate.
  - vm_compute. reflexivity.
  - vm_compute. reflexivity.
Defined.

(** X9: [clearCache] empties a store that works; when the database cannot
    be opened or the transaction cannot be started it resolves and leaves
    every entry in place. *)
Theorem clearCache_clears w :
  (next_fault w = Healthy →
     clearCache w = (Resolved tt, set_idb (λ _, ∅) (pop_fault w))) ∧
  (∀ e, next_fault w = OpenFails e ∨ next_fault w = TransactionThrows e →
     clearCache w = (Resolved tt, pop_fault w)).
Proof.
  unfold clearCache, initDB, indexedDB_open, mbind, M_bind, bind, try_catch.
  split.
  - intros ->. reflexivity.
  - intros e [-> | ->]; reflexivity.
Qed.

Lemma clearCache_clears_witness :
  idb (snd (clearCache (cached_world [] []))) = ∅ ∧
  idb (snd (clearCache (cached_world [] [OpenFails store_error])))
    = idb (cached_world [] []).
Proof.
  split.
  - destruct (clearCache_clears (cached_world [] [])) as [H _].
    rewrite (H eq_refl). reflexivity.
  - destruct (clearCache_clears (cached_world [] [OpenFails store_error])) as [_ H].
    rewrite (H store_error (or_introl eq_refl)). reflexivity.
Defined.


End StoreExtras.

(* ===================================================================== *)
(** ** More on the cache coordinator *)
(* ===================================================================== *)

Module CoordinatorExtras.
Import CacheService ApiService StoreFacts CoordinatorProperties AppScenarios MoreScenarios.

Section WithEndpoint.

Variable API_ENDPOINT : string.

(** [deletePictogram], by how the [DELETE] ends. *)
Lemma deletePictogram_run id w :
  deletePictogram API_ENDPOINT id w =
  let w' := pop_fetch "DELETE" (API_ENDPOINT +:+ "/pictograms/" +:+ id) w in
  match next_fetch w with
  | NetFails e => (Rejected e, w')
  | NetResponds r =>
      if ok r then invalidatePictogramCache id w'
      else (Rejected (Err "Error" ("Failed to delete pictogram: " +:+ statusText r)), w')
  end.
Proof.
  unfold deletePictogram, fetch, mbind, M_bind, bind. cbn.
  destruct (next_fetch w) as [e|r]; [reflexivity|].
  destruct (ok r); reflexivity.
Qed.

(** X10: an unfiltered list read that finds a live list entry resolves with
    the cached collection and makes no [fetch]; the store is left as it
    was. *)
Theorem list_hit_skips_network userId w entry :
  not_userId userId = true →
  next_fault w = Healthy →
  idb w !! LIST_CACHE_KEY = Some entry →
  next_now w ≤ expiresAt entry →
  fst (listPictograms API_ENDPOINT userId w) = Resolved (data entry) ∧
  fetched (snd (listPictograms API_ENDPOINT userId w)) = fetched w ∧
  network (snd (listPictograms API_ENDPOINT userId w)) = network w ∧
  idb (snd (listPictograms API_ENDPOINT userId w)) = idb w.
Proof.
  intros Hu Hf Hentry Hnow.
  unfold listPictograms, getCachedPictogramList, mbind, M_bind, bind. rewrite Hu.
  rewrite getFromCache_run, Hf, Hentry.
  rewrite bool_decide_eq_false_2 by lia. done.
Qed.

(** X11: a list read filtered by a user never reads or writes the store,
    even when the list is cached: it fetches the filtered collection and its
    result is what the network gives. *)
Theorem filtered_list_bypasses_cache userId w :
  not_userId userId = false →
  idb (snd (listPictograms API_ENDPOINT userId w)) = idb w ∧
  faults (snd (listPictograms API_ENDPOINT userId w)) = faults w ∧
  fetched (snd (listPictograms API_ENDPOINT userId w))
    = fetched w ++ [("GET", API_ENDPOINT +:+ "/pictograms?userId=" +:+ default "" userId)] ∧
  fst (listPictograms API_ENDPOINT userId w) =
    match next_fetch w with
    | NetFails e => Rejected e
    | NetResponds r =>
        if ok r then
          match body r with
          | Some pictograms => Resolved pictograms
          | None => Rejected (Err "SyntaxError" "Unexpected token in JSON")
          end
        else Rejected (Err "Error" ("Failed to list pictograms: " +:+ statusText r))
    end.
Proof.
  intros Hu. unfold listPictograms, fetch, mbind, M_bind, bind. rewrite Hu. cbn.
  destruct (next_fetch w) as [e|r]; [done|].
  destruct (ok r); cbn; [|done].
  unfold Response_json. by destruct (body r).
Qed.

(** X12: a store that cannot be reached is a miss and a write that is
    skipped. When neither the read nor the write of an unfiltered list read
    reaches the store, the read still resolves with the collection that the
    network gives, and the store is left as it was. *)
Theorem list_falls_through_unreachable_store userId w f1 f2 fs r fresh :
  not_userId userId = true →
  faults w = f1 :: f2 :: fs →
  unreachable f1 →
  unreachable f2 →
  next_fetch w = NetResponds r →
  ok r = true →
  body r = Some fresh →
  fst (listPictograms API_ENDPOINT userId w) = Resolved fresh ∧
  fetched (snd (listPictograms API_ENDPOINT userId w))
    = fetched w ++ [("GET", API_ENDPOINT +:+ "/pictograms")] ∧
  idb (snd (listPictograms API_ENDPOINT userId w)) = idb w.
Proof.
  intros Hu Hf H1 H2 Hnet Hok Hbody.
  assert (next_fault w = f1) as Hf1 by (unfold next_fault; by rewrite Hf).
  assert (next_fault (pop_fetch "GET" (API_ENDPOINT +:+ "/pictograms") (pop_fault w)) = f2)
    as Hf2 by (unfold next_fault, pop_fetch, pop_fault; cbn; by rewrite Hf).
  assert (listPictograms API_ENDPOINT userId w
          = (Resolved fresh,
             pop_fault (pop_fetch "GET" (API_ENDPOINT +:+ "/pictograms") (pop_fault w))))
    as ->; [|done].
  unfold listPictograms, getCachedPictogramList, cachePictogramList, fetch,
    mbind, M_bind, bind. rewrite Hu, getFromCache_run, Hf1.
  destruct H1 as [e1 [-> | ->]];
    change (next_fetch (pop_fault w)) with (next_fetch w); rewrite Hnet; cbn;
    rewrite Hok; cbn; unfold Response_json; rewrite Hbody; cbn;
    rewrite saveToCache_run, Hf2;
    destruct H2 as [e2 [-> | ->]]; reflexivity.
Qed.

(** X13: a delete that the server does not confirm is a hard failure. When
    the [fetch] rejects or the response is not [ok], [deletePictogram]
    rejects and starts no store operation: the cache is left as it was. *)
Theorem delete_failure_keeps_cache id w :
  (∀ r, next_fetch w = NetResponds r → ok r = false) →
  rejects (fst (deletePictogram API_ENDPOINT id w)) ∧
  idb (snd (deletePictogram API_ENDPOINT id w)) = idb w ∧
  faults (snd (deletePictogram API_ENDPOINT id w)) = faults w.
Proof.
  intros H. rewrite deletePictogram_run. cbn zeta.
  destruct (next_fetch w) as [e|r]; [by split; [eexists|]|].
  rewrite (H r eq_refl). by split; [eexists|].
Qed.

(** X14: a confirmed delete, on a store that works, resolves and leaves
    neither the record nor the list in the store; every other entry
    stays. *)
Theorem delete_success_invalidates id w r :
  next_fetch w = NetResponds r →
  ok r = true →
  storage_healthy w →
  fst (deletePictogram API_ENDPOINT id w) = Resolved tt ∧
  idb (snd (deletePictogram API_ENDPOINT id w))
    = delete LIST_CACHE_KEY (delete id (idb w)).
Proof.
  intros Hnet Hok Hw. rewrite deletePictogram_run, Hnet, Hok. cbn zeta.
  by rewrite invalidatePictogramCache_healthy.
Qed.

(** X15: a create that fails is a hard failure that leaves the cache alone.
    When the [fetch] rejects, the response is not [ok], or its body is not
    JSON, [createPictogram] rejects and starts no store operation: a cached
    list stays. *)
Theorem create_failure_keeps_cache p w :
  (∀ r, next_fetch w = NetResponds r → ok r = false ∨ body r = None) →
  rejects (fst (createPictogram API_ENDPOINT p w)) ∧
  idb (snd (createPictogram API_ENDPOINT p w)) = idb w ∧
  faults (snd (createPictogram API_ENDPOINT p w)) = faults w.
Proof.
  intros H. rewrite createPictogram_run. cbn zeta.
  destruct (next_fetch w) as [e|r]; [by split; [eexists|]|].
  destruct (ok r) eqn:Hok.
  - destruct (H r eq_refl) as [?| ->]; [congruence|]. by split; [eexists|].
  - by split; [eexists|].
Qed.

(** X16: an update that the server confirms resolves with the record the
    server returns, not with the requested fields, and invalidates the
    record and the list. When the confirmation carries no JSON body the
    update rejects before any invalidation, and the entries cached before
    the update stay. *)
Theorem update_success id updates w r :
  next_fetch w = NetResponds r →
  ok r = true →
  storage_healthy w →
  match body r with
  | Some updated =>
      fst (updatePictogram API_ENDPOINT id updates w) = Resolved updated ∧
      idb (snd (updatePictogram API_ENDPOINT id updates w))
        = delete LIST_CACHE_KEY (delete id (idb w))
  | None =>
      rejects (fst (updatePictogram API_ENDPOINT id updates w)) ∧
      idb (snd (updatePictogram API_ENDPOINT id updates w)) = idb w
  end.
Proof.
  intros Hnet Hok Hw. rewrite updatePictogram_run, Hnet, Hok. cbn zeta.
  destruct (body r); [|by split; [eexists|]].
  by rewrite invalidatePictogramCache_healthy.
Qed.

(** X17: the record that the soft failure of an update resolves with has
    every field of [updates]; its [id] is the [id] of the call only when
    [updates] has no [id] field of its own, which otherwise wins. *)
Theorem soft_failure_record id updates w r :
  next_fetch w = NetResponds r →
  ok r = false →
  storage_healthy w →
  ∃ record,
    fst (updatePictogram API_ENDPOINT id updates w) = Resolved (JItem record) ∧
    record !! "id" = Some (default (JStr id) (updates !! "id")) ∧
    ∀ k, k ≠ "id" → record !! k = updates !! k.
Proof.
  intros Hnet Hok Hw. exists (merged id updates).
  split; [by eapply update_soft_failure|]. split.
  - unfold merged. rewrite lookup_union.
    destruct (updates !! "id"); by rewrite lookup_singleton_eq.
  - intros k Hk. by apply merged_field.
Qed.

End WithEndpoint.

Lemma list_hit_skips_network_witness :
  fst (listPictograms endpoint None (cached_world [] [])) = Resolved old_list ∧
  fetched (snd (listPictograms endpoint None (cached_world [] []))) = [] ∧
  network (snd (listPictograms endpoint None (cached_world [] []))) = [] ∧
  idb (snd (listPictograms endpoint None (cached_world [] []))) = idb (cached_world [] []).
Proof.
  apply (list_hit_skips_network endpoint None (cached_world [] [])
           {| data := old_list; timestamp := 1000; expiresAt := 301000 |}).
  - reflexivity.
  - reflexivity.
  - vm_compute. reflexivity.
  - vm_compute. discriminate.
Defined.

Lemma filtered_list_bypasses_cache_witness :
  let w := cached_world [NetResponds list_response] [] in
  idb (snd (listPictograms endpoint (Some "u1") w)) = idb w ∧
  faults (snd (listPictograms endpoint (Some "u1") w)) = faults w ∧
  fetched (snd (listPictograms endpoint (Some "u1") w))
    = [("GET", endpoint +:+ "/pictograms?userId=" +:+ "u1")] ∧
  fst (listPictograms endpoint (Some "u1") w) = Resolved fresh_list.
Proof.
  apply (filtered_list_bypasses_cache endpoint (Some "u1")
           (cached_world [NetResponds list_response] [])).
  reflexivity.
Defined.

Lemma list_falls_through_unreachable_store_witness :
  let w := cached_world [NetResponds list_response]
             [OpenFails store_error; TransactionThrows store_error] in
  fst (listPictograms endpoint None w) = Resolved fresh_list ∧
  fetched (snd (listPictograms endpoint None w)) = [("GET", endpoint +:+ "/pictograms")] ∧
  idb (snd (listPictograms endpoint None w)) = idb w.
Proof.
  apply (list_falls_through_unreachable_store endpoint None
           (cached_world [NetResponds list_response]
              [OpenFails store_error; TransactionThrows store_error])
           (OpenFails store_error) (TransactionThrows store_error) []
           list_response fresh_list).
  - reflexivity.
  - reflexivity.
  - exists store_error. by left.
  - exists store_error. by right.
  - reflexivity.
  - reflexivity.
  - reflexivity.
Defined.

Lemma delete_failure_keeps_cache_witness :
  let w := cached_world [NetResponds server_error] [] in
  rejects (fst (deletePictogram endpoint "p1" w)) ∧
  idb (snd (deletePictogram endpoint "p1" w)) = idb w ∧
  faults (snd (deletePictogram endpoint "p1" w)) = faults w.
Proof.
  apply (delete_failure_keeps_cache endpoint "p1" (cached_world [NetResponds server_error] [])).
  intros r [= <-]. reflexivity.
Defined.

Lemma delete_success_invalidates_witness :
  let w := cached_world [NetResponds deleted_response] [] in
  fst (deletePictogram endpoint "p1" w) = Resolved tt ∧
  idb (snd (deletePictogram endpoint "p1" w)) = delete LIST_CACHE_KEY (delete "p1" (idb w)).
Proof.
  apply (delete_success_invalidates endpoint "p1"
           (cached_world [NetResponds deleted_response] []) deleted_response).
  - reflexivity.
  - reflexivity.
  - constructor.
Defined.

Lemma create_failure_keeps_cache_witness :
  let w := cached_world [NetResponds no_content] [] in
  rejects (fst (createPictogram endpoint casa w)) ∧
  idb (snd (createPictogram endpoint casa w)) = idb w ∧
  faults (snd (createPictogram endpoint casa w)) = faults w.
Proof.
  apply (create_failure_keeps_cache endpoint casa (cached_world [NetResponds no_content] [])).
  intros r [= <-]. by right.
Defined.

Lemma update_success_witness :
  (fst (updatePictogram endpoint "p1" casa (cached_world [NetResponds update_response] []))
     = Resolved updated_perro ∧
   idb (snd (updatePictogram endpoint "p1" casa
               (cached_world [NetResponds update_response] [])))
     = delete LIST_CACHE_KEY (delete "p1" (idb (cached_world [] [])))) ∧
  (rejects (fst (updatePictogram endpoint "p1" casa
                   (cached_world [NetResponds no_content] []))) ∧
   idb (snd (updatePictogram endpoint "p1" casa (cached_world [NetResponds no_content] [])))
     = idb (cached_world [] [])).
Proof.
  split.
  - exact (update_success endpoint "p1" casa
             (cached_world [NetResponds update_response] []) update_response
             eq_refl eq_refl ltac:(constructor)).
  - exact (update_success endpoint "p1" casa
             (cached_world [NetResponds no_content] []) no_content
             eq_refl eq_refl ltac:(constructor)).
Defined.

Lemma soft_failure_record_witness :
  ∃ record,
    fst (updatePictogram endpoint "p1" {[ "id" := JStr "p9"; "word" := JStr "GATO" ]}
           (cached_world [NetResponds not_found] []))
      = Resolved (JItem record) ∧
    record !! "id" = Some (JStr "p9") ∧
    ∀ k, k ≠ "id" →
         record !! k = ({[ "id" := JStr "p9"; "word" := JStr "GATO" ]} : pictogram) !! k.
Proof.
  exact (soft_failure_record endpoint "p1" {[ "id" := JStr "p9"; "word" := JStr "GATO" ]}
           (cached_world [NetResponds not_found] []) not_found
           eq_refl eq_refl ltac:(constructor)).
Defined.

End CoordinatorExtras.

(* ===================================================================== *)
(** ** The handlers of the component *)
(* ===================================================================== *)

Module AppExtras.
Import CacheService ApiService App AppScenarios MoreScenarios.

(** Dropping the element at one index. *)
Lemma filter_index_drops_one {A} (index : Z) (l : list A) (n : nat) :
  filter_index (λ i _, negb (bool_decide (Z.of_nat i = index))) n l
  = if bool_decide (Z.of_nat n ≤ index < Z.of_nat n + Z.of_nat (length l))
    then take (Z.to_nat (index - Z.of_nat n)) l
           ++ drop (S (Z.to_nat (index - Z.of_nat n))) l
    else l.
Proof.
  revert n. induction l as [|x l IH]; intros n.
  - cbn [filter_index]. case_bool_decide; [|done]. by rewrite take_nil, drop_nil.
  - cbn [filter_index length]. rewrite IH.
    destruct (decide (Z.of_nat n = index)) as [Heq|Hne].
    + rewrite (bool_decide_eq_true_2 (Z.of_nat n = index)) by done. cbn [negb].
      rewrite bool_decide_eq_false_2 by lia.
      rewrite bool_decide_eq_true_2 by lia.
      replace (index - Z.of_nat n) with 0 by lia. reflexivity.
    + rewrite (bool_decide_eq_false_2 (Z.of_nat n = index)) by done. cbn [negb].
      repeat case_bool_decide; try lia; try reflexivity.
      replace (Z.to_nat (index - Z.of_nat n))
        with (S (Z.to_nat (index - Z.of_nat (S n)))) by lia.
      reflexivity.
Qed.

(** X21: [removeFromSentence] drops exactly the pictogram at [index] and
    keeps the order of the others; an index outside the sentence (negative,
    or at least its length) leaves the sentence as it is. *)
Theorem removeFromSentence_drops_index index s :
  sentence (removeFromSentence index s)
  = if bool_decide (0 ≤ index < Z.of_nat (length (sentence s)))
    then take (Z.to_nat index) (sentence s) ++ drop (S (Z.to_nat index)) (sentence s)
    else sentence s.
Proof.
  unfold removeFromSentence, setSentence. cbn [sentence].
  rewrite filter_index_drops_one. cbn. by rewrite Z.sub_0_r.
Qed.

(** X22: adding a pictogram to the sentence and removing the last position
    gives the state back. *)
Theorem add_then_remove_last p s :
  removeFromSentence (Z.of_nat (length (sentence s))) (addToSentence p s) = s.
Proof.
  destruct s as [ps sent t].
  unfold removeFromSentence, addToSentence, setSentence. cbn. f_equal.
  rewrite filter_index_drops_one, length_app. cbn.
  rewrite bool_decide_eq_true_2 by lia.
  rewrite Z.sub_0_r, Nat2Z.id.
  rewrite take_app_length, drop_ge by (rewrite length_app; cbn; lia).
  apply app_nil_r.
Qed.

Section WithEndpoint.

Variable API_ENDPOINT : string.

Lemma handleDeletePictogram_run id s w :
  handleDeletePictogram API_ENDPOINT id (s, w) =
  match deletePictogram API_ENDPOINT id w with
  | (Resolved _, w') =>
      (Resolved tt,
       (State (filter (λ p, has_id id p = false) (pictograms s)) (sentence s)
              (Some ("Pictograma eliminado", ToastSuccess)), w'))
  | (Rejected _, w') =>
      (Resolved tt,
       (State (pictograms s) (sentence s)
              (Some ("No se pudo borrar el pictograma", ToastError)), w'))
  end.
Proof.
  unfold handleDeletePictogram, mbind, M_bind, bind, try_catch, call. cbn.
  destruct (deletePictogram API_ENDPOINT id w) as [[[]|e] w']; reflexivity.
Qed.

Lemma handleAddPictogram_run newPictogram s w :
  handleAddPictogram API_ENDPOINT newPictogram (s, w) =
  match createPictogram API_ENDPOINT (delete "id" newPictogram) w with
  | (Resolved created, w') =>
      (Resolved tt,
       (State (created :: pictograms s) (sentence s)
              (Some ("Pictograma creado con éxito", ToastSuccess)), w'))
  | (Rejected _, w') =>
      (Resolved tt,
       (State (pictograms s) (sentence s)
              (Some ("Error guardando en la base de datos", ToastError)), w'))
  end.
Proof.
  unfold handleAddPictogram, mbind, M_bind, bind, try_catch, call. cbn.
  destruct (createPictogram _ _ w) as [[created|e] w']; reflexivity.
Qed.

(** X18: [handleDeletePictogram] never rejects, and when [deletePictogram]
    rejects, for whatever reason, the list on the screen is the list from
    before the call: the record taken out in advance is put back, and the
    toast reports the error. *)
Theorem handleDelete_rolls_back id s w :
  fst (handleDeletePictogram API_ENDPOINT id (s, w)) = Resolved tt ∧
  (rejects (fst (deletePictogram API_ENDPOINT id w)) →
   pictograms (fst (snd (handleDeletePictogram API_ENDPOINT id (s, w)))) = pictograms s ∧
   toast (fst (snd (handleDeletePictogram API_ENDPOINT id (s, w))))
     = Some ("No se pudo borrar el pictograma", ToastError)).
Proof.
  rewrite handleDeletePictogram_run.
  destruct (deletePictogram API_ENDPOINT id w) as [[[]|e] w']; cbn.
  - split; [done|]. intros [e He]. discriminate.
  - done.
Qed.

(** X19: when [deletePictogram] resolves, the list on the screen is the old
    list without the records of that [id]: a record stays exactly when its
    [id] is another one, and the order is kept. *)
Theorem handleDelete_removes_id id s w :
  resolves (fst (deletePictogram API_ENDPOINT id w)) →
  pictograms (fst (snd (handleDeletePictogram API_ENDPOINT id (s, w))))
    = filter (λ p, has_id id p = false) (pictograms s) ∧
  (∀ p, p ∈ pictograms (fst (snd (handleDeletePictogram API_ENDPOINT id (s, w))))
        ↔ p ∈ pictograms s ∧ has_id id p = false) ∧
  toast (fst (snd (handleDeletePictogram API_ENDPOINT id (s, w))))
    = Some ("Pictograma eliminado", ToastSuccess).
Proof.
  intros [[] Hr]. rewrite handleDeletePictogram_run.
  destruct (deletePictogram API_ENDPOINT id w) as [[[]|e] w']; [|discriminate].
  cbn. split; [done|]. split; [|done].
  intros p. rewrite list_elem_of_filter. tauto.
Qed.

(** X20: [handleAddPictogram] never rejects. The created record, as the
    server returned it, is put in front of the list when [createPictogram]
    resolves; when it rejects the list is not changed and the toast reports
    the error. *)
Theorem handleAdd_prepends_created newPictogram s w :
  fst (handleAddPictogram API_ENDPOINT newPictogram (s, w)) = Resolved tt ∧
  pictograms (fst (snd (handleAddPictogram API_ENDPOINT newPictogram (s, w))))
    = match fst (createPictogram API_ENDPOINT (delete "id" newPictogram) w) with
      | Resolved created => created :: pictograms s
      | Rejected _ => pictograms s
      end ∧
  toast (fst (snd (handleAddPictogram API_ENDPOINT newPictogram (s, w))))
    = match fst (createPictogram API_ENDPOINT (delete "id" newPictogram) w) with
      | Resolved _ => Some ("Pictograma creado con éxito", ToastSuccess)
      | Rejected _ => Some ("Error guardando en la base de datos", ToastError)
      end.
Proof.
  rewrite handleAddPictogram_run.
  by destruct (createPictogram _ _ w) as [[created|e] w'].
Qed.

End WithEndpoint.

Lemma handleDelete_rolls_back_witness :
  let run := handleDeletePictogram endpoint "p1" (screen [JItem perro],
               cached_world [NetResponds server_error] []) in
  fst run = Resolved tt ∧
  pictograms (fst (snd run)) = [JItem perro] ∧
  toast (fst (snd run)) = Some ("No se pudo borrar el pictograma", ToastError).
Proof.
  destruct (handleDelete_rolls_back endpoint "p1" (screen [JItem perro])
              (cached_world [NetResponds server_error] [])) as [H1 H2].
  split; [exact H1|]. apply H2. eexists. vm_compute. reflexivity.
Defined.

Lemma handleDelete_removes_id_witness :
  let run := handleDeletePictogram endpoint "p1" (screen [JItem perro; created_casa],
               cached_world [NetResponds deleted_response] []) in
  pictograms (fst (snd run)) = [created_casa] ∧
  toast (fst (snd run)) = Some ("Pictograma eliminado", ToastSuccess).
Proof.
  destruct (handleDelete_removes_id endpoint "p1" (screen [JItem perro; created_casa])
              (cached_world [NetResponds deleted_response] [])) as (H1 & _ & H3).
  - exists tt. vm_compute. reflexivity.
  - split; [|exact H3]. rewrite H1. vm_compute. reflexivity.
Defined.

End AppExtras.

(* ===================================================================== *)
(** ** More on the request proxy *)
(* ===================================================================== *)

Module ProxyExtras.
Import ServiceWorker ProxyFacts ProxyProperties ProxyScenarios.

Lemma prefix_spec (p s : string) :
  String.prefix p s = true ↔ ∃ post, s = p +:+ post.
Proof.
  revert s. induction p as [|a p IH]; intros [|b s]; cbn.
  - split; [intros _; by exists "" | done].
  - split; [intros _; by exists (String b s) | done].
  - split; [done | by intros [post ?]].
  - destruct (Ascii.ascii_dec a b) as [->|Hne].
    + rewrite IH. split; intros [post Hpost]; exists post.
      * by rewrite Hpost.
      * by injection Hpost.
    + split; [done|]. intros [post Hpost]. injection Hpost as ? ?. done.
Qed.

Lemma contains_spec (pattern s : string) :
  contains pattern s = true ↔ ∃ pre post, s = pre +:+ pattern +:+ post.
Proof.
  induction s as [|a s IH].
  - cbn [contains]. rewrite orb_false_r, prefix_spec. split.
    + intros [post Hpost]. by exists "", post.
    + intros [[|b pre] [post Hpost]]; [by exists post | discriminate].
  - cbn [contains]. rewrite orb_true_iff, prefix_spec, IH. split.
    + intros [[post Hpost] | (pre & post & Hpost)].
      * by exists "", post.
      * exists (String a pre), post. cbn. by rewrite Hpost.
    + intros [[|b pre] [post Hpost]].
      * left. by exists post.
      * right. cbn in Hpost. injection Hpost as -> ->. by exists pre, post.
Qed.

(** X23: the listener puts a request in the immutable-media partition
    exactly when [.s3.amazonaws.com] occurs somewhere in its host name;
    neither the method nor the rest of the URL matters, and the pattern need
    not end the host name. *)
Theorem media_partition_by_hostname request :
  classify request = ImmutableMedia ↔
  ∃ pre post, hostname (url request) = pre +:+ ".s3.amazonaws.com" +:+ post.
Proof.
  rewrite <- contains_spec. unfold classify, S3_PATTERN_test.
  destruct (contains _ _); [done|].
  by destruct (_ || _).
Qed.

Lemma media_partition_by_hostname_witness :
  classify {| method := "POST";
              url := {| href := "https://cdn.s3.amazonaws.com.example.org/x";
                        origin := "https://cdn.s3.amazonaws.com.example.org";
                        hostname := "cdn.s3.amazonaws.com.example.org" |} |}
  = ImmutableMedia.
Proof.
  apply media_partition_by_hostname. by exists "cdn", ".example.org".
Defined.

(** X24: a request is in the authoritative-API partition exactly when its
    host name does not put it in the media partition and its URL starts with
    [API_ENDPOINT] (or its origin is [API_ENDPOINT]); every other request
    falls in the default partition. *)
Theorem api_partition_by_prefix request :
  (classify request = AuthoritativeApi ↔
     classify request ≠ ImmutableMedia ∧
     (origin (url request) = API_ENDPOINT ∨
      ∃ path, href (url request) = API_ENDPOINT +:+ path)) ∧
  (classify request = DefaultPartition ↔
     classify request ≠ ImmutableMedia ∧
     origin (url request) ≠ API_ENDPOINT ∧
     ¬ ∃ path, href (url request) = API_ENDPOINT +:+ path).
Proof.
  rewrite <- prefix_spec. unfold classify.
  destruct (S3_PATTERN_test _); [intuition congruence|].
  case_bool_decide as Ho; destruct (String.prefix _ _) eqn:Hp; cbn;
    intuition congruence.
Qed.

Lemma api_partition_by_prefix_witness :
  classify list_request = AuthoritativeApi ∧ classify page = DefaultPartition.
Proof.
  split.
  - apply (proj1 (api_partition_by_prefix list_request)). split.
    + vm_compute. discriminate.
    + right. by exists "/pictograms".
  - apply (proj2 (api_partition_by_prefix page)). split; [vm_compute; discriminate|].
    split; [vm_compute; discriminate|].
    intros [path Hpath]. vm_compute in Hpath. discriminate.
Defined.

(** X25: activation keeps the caches of the current version with what they
    hold, deletes every cache of another name, claims the open pages, and
    lets the writes in progress be. *)
Theorem activate_sweeps_other_versions w :
  fst (on_activate w) = Resolved tt ∧
  (∀ name, name ∈ CACHE_NAMES_values →
           caches (snd (on_activate w)) !! name = caches w !! name) ∧
  (∀ name, name ∉ CACHE_NAMES_values → caches (snd (on_activate w)) !! name = None) ∧
  claimed (snd (on_activate w)) = true ∧
  writing (snd (on_activate w)) = writing w.
Proof.
  unfold on_activate, mbind, M_bind, bind, clients_claim, set_caches. cbn.
  split; [done|]. split; [|split; [|done]].
  - intros name Hin. destruct (caches w !! name) as [c|] eqn:Hc.
    + by apply map_lookup_filter_Some.
    + apply map_lookup_filter_None. left. done.
  - intros name Hout. apply map_lookup_filter_None. right. intros c _. done.
Qed.

Lemma activate_sweeps_other_versions_witness :
  let w := World {[ "leopictos-api-v0" := {[ href (url list_request) := listing ]};
                    CACHE_NAMES_api := {[ href (url list_request) := listing ]} ]}
                 [] [] [] app false false in
  caches (snd (on_activate w)) !! CACHE_NAMES_api = caches w !! CACHE_NAMES_api ∧
  caches (snd (on_activate w)) !! "leopictos-api-v0" = None.
Proof.
  cbn zeta.
  destruct (activate_sweeps_other_versions
              (World {[ "leopictos-api-v0" := {[ href (url list_request) := listing ]};
                        CACHE_NAMES_api := {[ href (url list_request) := listing ]} ]}
                     [] [] [] app false false)) as (_ & Hkeep & Hdrop & _).
  split.
  - apply Hkeep. apply (bool_decide_unpack _). vm_compute. exact I.
  - apply Hdrop. apply (bool_decide_unpack _). vm_compute. exact I.
Defined.




(** X27: with a stored copy, stale-while-revalidate answers with the copy
    whatever the network does, and still makes the [fetch]; an [ok] response
    of that [fetch] is the stored copy once the browser has completed the
    write, so it is what the next request is answered with, unless it is a
    206, which the Cache API refuses and which leaves the caches as they
    were. *)
Theorem stale_copy_served_and_refreshed request cacheName w copy :
  stored (caches w) cacheName request = Some copy →
  fst (staleWhileRevalidateStrategy request cacheName w) = Resolved (Some copy) ∧
  fetched (snd (staleWhileRevalidateStrategy request cacheName w))
    = fetched w ++ [request] ∧
  (∀ r, next_fetch w = NetResponds r → ok r = true →
     if bool_decide (status r = 206)
     then caches (settle (snd (staleWhileRevalidateStrategy request cacheName w)))
            = caches (settle (opened cacheName w))
     else ∀ w', caches w'
                  = caches (settle (snd (staleWhileRevalidateStrategy request cacheName w))) →
                fst (staleWhileRevalidateStrategy request cacheName w')
                  = Resolved (Some r)).
Proof.
  intros Hcopy.
  assert (method request = "GET") as Hget.
  { unfold stored in Hcopy. by case_bool_decide. }
  rewrite staleWhileRevalidateStrategy_run, Hcopy. cbn zeta.
  split; [by destruct (next_fetch w)|]. split.
  - destruct (next_fetch w) as [e|r]; cbn; [by rewrite fetched_opened|].
    destruct (ok r); cbn; by rewrite fetched_opened.
  - intros r -> ->. cbn [snd]. rewrite caches_settle_put_start.
    change (caches (settle (pop_fetch request (opened cacheName w))))
      with (caches (settle (opened cacheName w))).
    case_bool_decide as Hstatus; [by apply complete_put_partial|].
    intros w' Hw'. rewrite staleWhileRevalidateStrategy_run. cbn zeta.
    assert (stored (caches w') cacheName request = Some r) as ->.
    { rewrite Hw'. by apply stored_complete_put. }
    by destruct (next_fetch w').
Qed.

Lemma stale_copy_served_and_refreshed_witness :
  let w := World {[ CACHE_NAMES_static := {[ href (url page) := listing ]} ]}
                 [] [NetResponds png] [] app false false in
  fst (staleWhileRevalidateStrategy page CACHE_NAMES_static w) = Resolved (Some listing) ∧
  fetched (snd (staleWhileRevalidateStrategy page CACHE_NAMES_static w)) = [page] ∧
  fst (staleWhileRevalidateStrategy page CACHE_NAMES_static
         (settle (snd (staleWhileRevalidateStrategy page CACHE_NAMES_static w))))
    = Resolved (Some png).
Proof.
  cbn zeta.
  destruct (stale_copy_served_and_refreshed page CACHE_NAMES_static
              (World {[ CACHE_NAMES_static := {[ href (url page) := listing ]} ]}
                     [] [NetResponds png] [] app false false) listing)
    as (H1 & H2 & H3).
  - vm_compute. reflexivity.
  - split; [exact H1|]. split; [exact H2|].
    exact (H3 png eq_refl eq_refl _ eq_refl).
Defined.

(** X28: without a stored copy, stale-while-revalidate answers with the
    response of the network whatever its status, and starts a cache write
    only for an [ok] response: an error page is handed on and not kept. *)
Theorem stale_miss_waits_for_network request cacheName w r :
  stored (caches w) cacheName request = None →
  next_fetch w = NetResponds r →
  fst (staleWhileRevalidateStrategy request cacheName w) = Resolved (Some r) ∧
  writing (snd (staleWhileRevalidateStrategy request cacheName w))
    = writing w ++ (if ok r then [(cacheName, request, r)] else []).
Proof.
  intros Hmiss Hnet. rewrite staleWhileRevalidateStrategy_run, Hmiss, Hnet. cbn zeta.
  split; [done|].
  destruct (ok r); cbn; rewrite writing_opened; [done | by rewrite app_nil_r].
Qed.

Lemma stale_miss_waits_for_network_witness :
  let gone := {| status := 404; bytes := "Not Found" |} in
  fst (staleWhileRevalidateStrategy page CACHE_NAMES_static (online [NetResponds gone]))
    = Resolved (Some gone) ∧
  writing (snd (staleWhileRevalidateStrategy page CACHE_NAMES_static
                  (online [NetResponds gone]))) = [].
Proof.
  apply (stale_miss_waits_for_network page CACHE_NAMES_static
           (online [NetResponds {| status := 404; bytes := "Not Found" |}])
           {| status := 404; bytes := "Not Found" |}); reflexivity.
Defined.

(** X30: what an API [GET] fetched online is replayed offline. After an
    [ok] response that is not a 206 and the completion of its write, the
    same request made while the network is down is answered with that
    response. *)
Theorem network_first_replays_offline request w r :
  classify request = AuthoritativeApi →
  method request = "GET" →
  next_fetch w = NetResponds r →
  ok r = true →
  status r ≠ 206 →
  ∀ w' e, caches w' = caches (settle (snd (on_fetch request w))) →
          next_fetch w' = NetFails e →
          fst (on_fetch request w') = Resolved (Some r).
Proof.
  intros Hc Hget Hnet Hok Hstatus w' e Hw' Hdown.
  rewrite (on_fetch_api request w' Hc), networkFirstStrategy_run, Hdown. cbn zeta.
  assert (stored (caches w') CACHE_NAMES_api request = Some r) as ->; [|done].
  rewrite Hw', (on_fetch_api request w Hc), networkFirstStrategy_run, Hnet, Hok.
  rewrite bool_decide_eq_true_2 by done. cbn [andb snd].
  rewrite caches_settle_started. by apply stored_complete_put.
Qed.

Lemma network_first_replays_offline_witness :
  fst (on_fetch list_request
         (settle (snd (on_fetch list_request (online [NetResponds listing])))))
    = Resolved (Some listing).
Proof.
  apply (network_first_replays_offline list_request (online [NetResponds listing]) listing
           ltac:(vm_compute; reflexivity) eq_refl eq_refl eq_refl
           ltac:(vm_compute; discriminate) _ network_down eq_refl).
  reflexivity.
Defined.




#[local] Arguments ok : simpl never.
#[local] Arguments storable : simpl never.




End ProxyExtras.
